(** * The QCE20 tutorial notebooks: qubit benchmarks and readout calibration

    A shallow embedding of the two notebooks of [QCVV/Session 1.ipynb]:

    - Session 1 (qubit-level benchmarks and measurement error mitigation):
      the T1 experiment design, the readout-error report and the
      measurement calibration;
    - Exercise 2 (calibrating a qubit measurement): the pulse schedule of
      the readout experiment, the amplitude sweep and the choice of the
      optimal amplitude.

    The backend properties that the readout report rounds are binary64
    numbers, with the operations of IEEE 754 as the Standard Library
    specifies them ([SpecFloat]).  The arguments of [np.linspace] in the
    notebook are small decimal constants: there the floats are modelled
    by exact rationals [Q], and the separations that [np.argmax] compares
    by reals [R].  Python integers are [Z], indices and qubit numbers are
    [nat].  A Python exception is [None]; the value [None] that a
    function without a [return] statement gives is [PyNone]. *)

From Stdlib Require Import Ascii String Bool Arith.
From Stdlib Require Import List ZArith QArith Qround Qabs Qpower Reals Lqa Lra Lia.
From Stdlib Require Import SpecFloat Zpower.
Import ListNotations.

(** ** The numpy functions the notebooks call *)

Module np.

(** [np.linspace(start, stop, num)]: [num] evenly spaced samples over the
    closed interval; [step = (stop - start) / (num - 1)], sample [i] is
    [i * step + start], and the last sample is set to [stop].  The
    samples are exact rationals: numpy computes them in binary64, and on
    the three calls of the notebook, [linspace(10, 300, 50)],
    [linspace(5, 150, 25)] and [linspace(0, 0.15, 10)], its samples agree
    with these rationals to the last bits of a binary64 number. *)
Definition linspace (start stop : Q) (num : nat) : list Q :=
  match num with
  | O => []
  | S O => [start]
  | S div =>
      let step := ((stop - start) / inject_Z (Z.of_nat div))%Q in
      map (fun i => (inject_Z (Z.of_nat i) * step + start)%Q) (seq 0 div)
        ++ [stop]
  end.

(** [x.astype(int)]: truncation toward zero, for the samples of the two
    designs of the notebook: they are at most 300, so a 64-bit integer
    holds them, and truncating the exact sample gives the integer that
    numpy gets from the binary64 one. *)
Definition astype_int (x : Q) : Z := Z.quot (Qnum x) (Zpos (Qden x)).

(** *** binary64

    A [float64] is a number of IEEE 754 binary64: a signed zero, an
    infinity, NaN, or [(-1)^s * m * 2^e].  Multiplication, addition and
    division round to nearest, ties to even. *)
Definition float64 : Type := spec_float.

Definition prec : Z := 53.
Definition emax : Z := 1024.

Definition mul : float64 -> float64 -> float64 := SFmul prec emax.
Definition add : float64 -> float64 -> float64 := SFadd prec emax.
Definition div : float64 -> float64 -> float64 := SFdiv prec emax.
(** [x == y] on floats: the two zeros are equal, NaN equals nothing. *)
Definition eqb : float64 -> float64 -> bool := SFeqb.
Definition leb : float64 -> float64 -> bool := SFleb.

(** [float(n)] for a Python integer. *)
Definition of_Z (n : Z) : float64 := binary_normalize prec emax n 0 false.

Definition is_finite (x : float64) : bool :=
  match x with
  | S754_zero _ | S754_finite _ _ _ => true
  | S754_infinity _ | S754_nan => false
  end.

(** The exact value of a finite float (0 for the others). *)
Definition to_Q (x : float64) : Q :=
  match x with
  | S754_finite s m e => (inject_Z (cond_Zopp s (Zpos m)) * Qpower 2 e)%Q
  | _ => 0%Q
  end.

(** The integer nearest to a rational, ties to the even one. *)
Definition nearest_even (x : Q) : Z :=
  let f := Qfloor x in
  match (x - inject_Z f ?= 1 # 2)%Q with
  | Lt => f
  | Gt => (f + 1)%Z
  | Eq => if Z.even f then f else (f + 1)%Z
  end.

(** [np.rint]: the nearest integer as a float, ties to the even one; a
    result of zero keeps the sign of the argument; infinities and NaN
    are returned as they are. *)
Definition rint (x : float64) : float64 :=
  match x with
  | S754_finite s _ _ =>
      match nearest_even (to_Q x) with
      | Z0 => S754_zero s
      | n => of_Z n
      end
  | _ => x
  end.

(** [np.round(x, decimals)] for [decimals >= 0]: numpy multiplies by
    [10 ** decimals], takes [rint] and divides by [10 ** decimals], each
    step in binary64. *)
Definition round (x : float64) (decimals : nat) : float64 :=
  let p := of_Z (10 ^ Z.of_nat decimals) in
  div (rint (mul x p)) p.

Section Argmax.

Variable A : Type.
(** [gtb x y] is the array's [x > y]. *)
Variable gtb : A -> A -> bool.

(** The scan of [np.argmax]: [best] is the index of the largest value
    seen so far, [vbest] that value, [i] the index of the head of [l].
    Only a strictly larger value moves [best], so the first maximum wins. *)
Fixpoint argmax_from (best : nat) (vbest : A) (i : nat) (l : list A) : nat :=
  match l with
  | [] => best
  | x :: tl =>
      if gtb x vbest then argmax_from i x (S i) tl
      else argmax_from best vbest (S i) tl
  end.

(** [np.argmax(a)]; on an empty array numpy raises [ValueError]. *)
Definition argmax (l : list A) : option nat :=
  match l with
  | [] => None
  | x :: tl => Some (argmax_from 0 x 1 tl)
  end.

End Argmax.

Arguments argmax_from {A} gtb best vbest i l.
Arguments argmax {A} gtb l.

End np.

(** Comparison of two floats, read as reals. *)
Definition Rgtb (x y : R) : bool := if Rlt_dec y x then true else false.

(** ** Python helpers *)

(** [l[i]] for a non-negative index: [IndexError] out of range. *)
Definition getitem {A : Type} (l : list A) (i : nat) : option A := nth_error l i.

(** Option as the exception monad. *)
Definition obind {A B : Type} (x : option A) (f : A -> option B) : option B :=
  match x with
  | Some a => f a
  | None => None
  end.

Notation "'let?' x ':=' e1 'in' e2" := (obind e1 (fun x => e2))
  (at level 10, x name, e1 at level 100, e2 at level 200).

(** [[f(x) for x in l]] where [f] may raise. *)
Fixpoint omap {A B : Type} (f : A -> option B) (l : list A) : option (list B) :=
  match l with
  | [] => Some []
  | x :: tl =>
      let? y := f x in
      let? ys := omap f tl in
      Some (y :: ys)
  end.

(** [l[i]] for any integer index: a negative one counts from the end. *)
Definition getitem_int {A : Type} (l : list A) (i : Z) : option A :=
  if (i <? 0)%Z then
    if (Z.to_nat (- i) <=? length l)%nat
    then getitem l (length l - Z.to_nat (- i))
    else None
  else getitem l (Z.to_nat i).

(** ** Complex numbers: points of the IQ plane *)

Record complex : Type := mkC { re : R; im : R }.

Definition C0 : complex := mkC 0 0.
(** Multiplication by a real scalar. *)
Definition Cscale (k : R) (z : complex) : complex := mkC (k * re z) (k * im z).

(** ** What a job returns *)

Module qiskit.

(** The data of one experiment of a [Result].  At [meas_level=2] (the
    default of [execute]) the backend discriminates each shot and returns
    the counts dictionary; at [meas_level=1] it returns the kernelled
    memory: with [meas_return='single'] one row per shot, one complex IQ
    value per qubit. *)
Inductive ExperimentData : Type :=
| Counts (counts : list (string * nat))
| Memory (memory : list (list complex)).

Definition Result : Type := list ExperimentData.

(** [result.get_counts(i)]: raises when the experiment holds no counts. *)
Definition get_counts (result : Result) (i : nat) : option (list (string * nat)) :=
  match getitem result i with
  | Some (Counts c) => Some c
  | _ => None
  end.

(** The memory of an experiment is turned into an array of shape
    (shots, qubits): there is at least one shot, and every shot holds the
    same number of values, at least one. *)
Definition is_array (memory : list (list complex)) : bool :=
  match memory with
  | [] => false
  | shot :: rest =>
      negb (Nat.eqb (length shot) 0)
        && forallb (fun other => Nat.eqb (length other) (length shot)) rest
  end.

(** [result.get_memory(i)]: raises when the experiment holds no memory,
    or a memory that is not an array. *)
Definition get_memory (result : Result) (i : nat) : option (list (list complex)) :=
  match getitem result i with
  | Some (Memory mem) => if is_array mem then Some mem else None
  | _ => None
  end.

(** The measurement levels the notebooks run at: [meas_level=1] and the
    default, [meas_level=2]. *)
Inductive MeasLevel : Type := KERNELED | CLASSIFIED.

Section Execute.

(** What is executed: circuits in Session 1, pulse schedules in the
    exercise. *)
Variable Experiment : Type.

(** What the backend measures, which no cell decides: the counts of an
    experiment, and the kernelled IQ value of a shot of an experiment in
    a memory slot; the number of shots and of memory slots. *)
Variable counts_of : Experiment -> list (string * nat).
Variable iq : Experiment -> nat -> nat -> complex.
Variable shots slots : nat.

(** Modelled from the spec: [execute] belongs to the SDK, which the
    repository imports and does not contain.  The notebooks describe what
    its job returns.  Without [meas_level], the result "contains the
    results ("counts") from running the circuits", and "we can access the
    results associated with the j-th circuit in the experiment design by
    using [.get_counts(j)]".  "Running an experiment with [meas_level=1]
    allows us to get the kernelled data out from the device": "the result
    will be an array of complex values in the IQ plane", with "the
    results for every shot" when [meas_return="single"], and "the data
    for [meas_level=1] is available in the result object under the getter
    [result.get_memory(i)] for the respective program in the job".  Both
    calls at [meas_level=1] pass [meas_return='single']. *)
Definition execute (experiments : list Experiment) (meas_level : MeasLevel)
  : Result :=
  match meas_level with
  | CLASSIFIED => map (fun e => Counts (counts_of e)) experiments
  | KERNELED =>
      map (fun e =>
             Memory (map (fun shot => map (iq e shot) (seq 0 slots))
                         (seq 0 shots)))
          experiments
  end.

End Execute.

Arguments execute {Experiment} counts_of iq shots slots experiments meas_level.

End qiskit.

(** ** The pulse library: channels, pulses, schedules and the builder *)

Module pulse.

Inductive Channel : Type :=
| DriveChannel (index : nat)
| MeasureChannel (index : nat)
| AcquireChannel (index : nat)
| ControlChannel (index : nat)
| MemorySlot (index : nat).

Definition Channel_eqb (c1 c2 : Channel) : bool :=
  match c1, c2 with
  | DriveChannel i, DriveChannel j
  | MeasureChannel i, MeasureChannel j
  | AcquireChannel i, AcquireChannel j
  | ControlChannel i, ControlChannel j
  | MemorySlot i, MemorySlot j => Nat.eqb i j
  | _, _ => false
  end.

Definition Channel_eq_dec (c1 c2 : Channel) : {c1 = c2} + {c1 <> c2}.
Proof. decide equality; apply Nat.eq_dec. Defined.

(** The parametric pulses a notebook can build; durations in samples. *)
Inductive Pulse : Type :=
| mkGaussianSquare (duration : Z) (sigma : Z) (amp : Q) (width : Z)
| mkGaussian (duration : Z) (amp : Q) (sigma : Q)
| mkDrag (duration : Z) (amp : Q) (sigma : Q) (beta : Q)
| mkConstant (duration : Z) (amp : Q).

Definition pulse_duration (p : Pulse) : Z :=
  match p with
  | mkGaussianSquare duration _ _ _ => duration
  | mkGaussian duration _ _ => duration
  | mkDrag duration _ _ _ => duration
  | mkConstant duration _ => duration
  end.

(** The library validates the parameters of a pulse when it is built,
    and raises [PulseError] unless the norm of the amplitude is at most
    1, [sigma] is positive and, for a GaussianSquare, the width is at
    least 0 and less than the duration. *)
Definition validate_parameters (p : Pulse) : bool :=
  match p with
  | mkGaussianSquare duration sigma amp width =>
      Qle_bool (Qabs amp) 1 && (0 <? sigma)%Z
        && (0 <=? width)%Z && (width <? duration)%Z
  | mkGaussian _ amp sigma | mkDrag _ amp sigma _ =>
      Qle_bool (Qabs amp) 1 && negb (Qle_bool sigma 0)
  | mkConstant _ amp => Qle_bool (Qabs amp) 1
  end.

(** [pulse.GaussianSquare(duration=..., sigma=..., amp=..., width=...)] *)
Definition GaussianSquare (duration sigma : Z) (amp : Q) (width : Z)
  : option Pulse :=
  let p := mkGaussianSquare duration sigma amp width in
  if validate_parameters p then Some p else None.

Inductive Instruction : Type :=
| Play (p : Pulse) (channel : Channel)
| Acquire (duration : Z) (channel : Channel) (mem_slot : Channel)
| RelativeBarrier (channels : list Channel).

Definition inst_duration (i : Instruction) : Z :=
  match i with
  | Play p _ => pulse_duration p
  | Acquire duration _ _ => duration
  | RelativeBarrier _ => 0
  end.

Definition inst_channels (i : Instruction) : list Channel :=
  match i with
  | Play _ channel => [channel]
  | Acquire _ channel mem_slot => [channel; mem_slot]
  | RelativeBarrier channels => channels
  end.

(** A schedule: instructions with their start times. *)
Definition Schedule : Type := list (Z * Instruction).

(** What the builder reads of the backend: the number of qubits and, for
    each qubit, the control channels that operate on it. *)
Record Backend : Type := mkBackend {
  n_qubits : nat;
  u_channels : nat -> list nat
}.

(** [configuration().get_qubit_channels(qubit)]: every channel that
    operates on the qubit. *)
Definition qubit_channels (backend : Backend) (qubit : nat) : list Channel :=
  [DriveChannel qubit; MeasureChannel qubit; AcquireChannel qubit]
    ++ map ControlChannel (u_channels backend qubit).

(** *** Left alignment

    When the builder context closes, its instructions are placed in
    program order, each as early as its channels allow: at the latest
    stop time of the channels it occupies.  A barrier has no duration and
    occupies all its channels, which brings them to a common time. *)

Definition Timeline : Type := Channel -> Z.

Definition ch_stop_time (tl : Timeline) (channels : list Channel) : Z :=
  fold_right Z.max 0%Z (map tl channels).

Definition occupy (tl : Timeline) (channels : list Channel) (t : Z) : Timeline :=
  fun c => if existsb (Channel_eqb c) channels then t else tl c.

Fixpoint push_left_append (tl : Timeline) (block : list Instruction) : Schedule :=
  match block with
  | [] => []
  | i :: rest =>
      let insert_time := ch_stop_time tl (inst_channels i) in
      (insert_time, i)
        :: push_left_append
             (occupy tl (inst_channels i) (insert_time + inst_duration i)%Z) rest
  end.

Definition align_left (block : list Instruction) : Schedule :=
  push_left_append (fun _ => 0%Z) block.

(** *** The builder

    The body of [with pulse.build(backend) as sched:] runs in a context
    that holds the backend and the instructions appended so far; a Python
    exception in the body ends it without a schedule. *)

Record Context : Type := mkContext {
  backend : Backend;
  block : list Instruction
}.

Definition builder (A : Type) : Type := Context -> option (A * Context).

Definition ret {A : Type} (x : A) : builder A := fun ctx => Some (x, ctx).

Definition bind {A B : Type} (c : builder A) (f : A -> builder B) : builder B :=
  fun ctx =>
    match c ctx with
    | Some (x, ctx') => f x ctx'
    | None => None
    end.

(** A Python expression evaluated in the body. *)
Definition lift {A : Type} (x : option A) : builder A :=
  fun ctx =>
    match x with
    | Some v => Some (v, ctx)
    | None => None
    end.

(** [for x in l: body(x)] *)
Fixpoint for_ {A : Type} (l : list A) (body : A -> builder unit) : builder unit :=
  match l with
  | [] => ret tt
  | x :: tl => bind (body x) (fun _ => for_ tl body)
  end.

Definition append_instruction (i : Instruction) : builder unit :=
  fun ctx => Some (tt, mkContext (backend ctx) (block ctx ++ [i])).

(** [pulse.play(pulse, channel)]; what is played may be any Python value:
    [None] is not a pulse and raises. *)
Definition play (p : option Pulse) (channel : Channel) : builder unit :=
  match p with
  | Some p => append_instruction (Play p channel)
  | None => fun _ => None
  end.

(** [pulse.acquire(duration, channel, register)] *)
Definition acquire (duration : Z) (channel register : Channel) : builder unit :=
  append_instruction (Acquire duration channel register).

(** [pulse.num_qubits()] *)
Definition num_qubits : builder nat :=
  fun ctx => Some (n_qubits (backend ctx), ctx).

(** [pulse.barrier] called on qubits: a barrier over the set of all the
    channels of the qubits, appended when that set has more than one
    channel. *)
Definition barrier (qubits : list nat) : builder unit :=
  fun ctx =>
    let channels :=
      nodup Channel_eq_dec (flat_map (qubit_channels (backend ctx)) qubits) in
    if (1 <? length channels)%nat
    then append_instruction (RelativeBarrier channels) ctx
    else Some (tt, ctx).

(** [with pulse.build(backend=backend) as sched: body] *)
Definition build (backend : Backend) (body : builder unit) : option Schedule :=
  match body (mkContext backend []) with
  | Some (_, ctx) => Some (align_left (block ctx))
  | None => None
  end.

End pulse.

Declare Scope builder_scope.
Delimit Scope builder_scope with builder.
Notation "x <- c ;; k" := (pulse.bind c (fun x => k))
  (at level 61, c at next level, right associativity) : builder_scope.
Notation "c ;; k" := (pulse.bind c (fun _ => k))
  (at level 61, right associativity) : builder_scope.

(** ** Exercise 2: calibrating a qubit measurement *)

(** A qubit of the calibrated chip ([chip.qubits], loaded from
    [saved_chip_ex2.json]); the notebook reads its [index]. *)
Record Qubit : Type := mkQubit { index : nat }.

(** The Python values that the functions of the exercise return or are
    asked to return: [None], a float, a complex number, an array of
    complex values, a list of pulse schedules. *)
Inductive PyObject : Type :=
| PyNone
| PyFloat (v : R)
| PyComplex (z : complex)
| PyArray (values : list complex)
| PySchedules (progs : list pulse.Schedule).

Definition d (qubit : nat) : pulse.Channel := pulse.DriveChannel qubit.
Definition m (qubit : nat) : pulse.Channel := pulse.MeasureChannel qubit.
Definition a (qubit : nat) : pulse.Channel := pulse.AcquireChannel qubit.
Definition mem_slot (qubit : nat) : pulse.Channel := pulse.MemorySlot qubit.

(** The pulse parameters. *)
Definition meas_duration : Z := 11200.
Definition meas_sigma : Z := 54.
Definition meas_width : Z := meas_duration - 320.
Definition meas_amp_guess : Q := 1 # 100.
Definition n_exps : nat := 10.
Definition scale_factor : R := / 10 ^ 7.

Definition max_amp : Q := 15 # 100.
Definition amps : list Q := np.linspace 0 max_amp n_exps.

Section Exercise2.

(** The backend the notebook loads, the qubits of the chip, and the x180
    pulses, one per qubit of the chip, that the first exercise asks for. *)
Variable backend : pulse.Backend.
Variable chip_qubits : list Qubit.
Variable x180_pulses : list (option pulse.Pulse).

(** The cell of the first exercise as the notebook stands: the pulse of
    each qubit is still to be created ([x180 = None]). *)
Definition x180_pulses_exercise : list (option pulse.Pulse) :=
  map (fun _ : Qubit => @None pulse.Pulse) chip_qubits.

Local Open Scope builder_scope.

Definition prepare_meas_cal_exp (amp : Q) (prep_excited : bool)
  : option pulse.Schedule :=
  let? meas_pulse :=
    pulse.GaussianSquare meas_duration meas_sigma amp meas_width in
  pulse.build backend
    ((if prep_excited
      then x180 <- pulse.lift (getitem x180_pulses 0) ;; pulse.play x180 (d 0)
      else pulse.ret tt) ;;
     n <- pulse.num_qubits ;;
     pulse.barrier (seq 0 n) ;;
     pulse.for_ chip_qubits
       (fun qubit => pulse.play (Some meas_pulse) (m (index qubit))) ;;
     n' <- pulse.num_qubits ;;
     pulse.for_ (seq 0 n')
       (fun qubit => pulse.acquire meas_duration (a qubit) (mem_slot qubit))).

(** The two programs of the first readout job. *)
Definition cal_progs : option (list pulse.Schedule) :=
  let? ground := prepare_meas_cal_exp meas_amp_guess false in
  let? excited := prepare_meas_cal_exp meas_amp_guess true in
  Some [ground; excited].

(** What the backend measures when it runs a program. *)
Variable counts_of : pulse.Schedule -> list (string * nat).
Variable iq : pulse.Schedule -> nat -> nat -> complex.
Variable shots : nat.


(** [prep_exps(amps)] is an exercise: the body of the function is its
    docstring ("Returns: A list of pulse schedules with the first
    [n_exps] being ground reference experiments and the second half of
    experiments being excited state preparation experiments"), so the
    call returns [None]. *)
Definition prep_exps (amps : list Q) : PyObject := PyNone.

End Exercise2.

(** [result.get_memory(prog_idx)[:, qubit] * scale_factor] *)
Definition get_qubit_data (result : qiskit.Result) (prog_idx qubit : nat)
  : option (list complex) :=
  let? memory := qiskit.get_memory result prog_idx in
  let? column := omap (fun shot => getitem shot qubit) memory in
  Some (map (Cscale scale_factor) column).

(** The three functions below are exercises: the body of each is its
    docstring, so each call returns [None]. *)

(** [calculate_centroid_location(centroid_data)]; docstring: "Calculate
    the centroid location.  Returns: complex: The centroid location." *)
Definition calculate_centroid_location (centroid_data : list complex) : PyObject :=
  PyNone.

(** [calculate_centroid_separation(ground_loc, excited_loc)]; docstring:
    "Use the Euclidean distance between these centroid locations.
    Returns: float: Euclidean distance between our centroids". *)
Definition calculate_centroid_separation (ground_loc excited_loc : PyObject)
  : PyObject :=
  PyNone.

(** [calculate_distances(result)]; docstring: "Calculate the distance
    between each ground, excited pair from your experiment.  Returns: An
    array of complex values.  The distance between pointer states for
    each amplitude." *)
Definition calculate_distances (result : qiskit.Result) : PyObject := PyNone.

(** The cell that picks the calibrated amplitude:
    [optimal_idx = int(np.argmax(centroid_distances))] and
    [optimal_amp = amps[optimal_idx]]. *)
Definition optimal (centroid_distances : list R) : option (nat * Q) :=
  let? optimal_idx := np.argmax Rgtb centroid_distances in
  let? optimal_amp := getitem amps optimal_idx in
  Some (optimal_idx, optimal_amp).

(** The cell that reads the data of the calibrated amplitude back:
    the ground shots at program [optimal_idx], the excited ones at
    program [n_exps + optimal_idx]. *)
Definition optimal_data (readout_cal_result : qiskit.Result) (optimal_idx : nat)
  : option (list complex * list complex) :=
  let? ground := get_qubit_data readout_cal_result optimal_idx 0 in
  let? excited := get_qubit_data readout_cal_result (n_exps + optimal_idx) 0 in
  Some (ground, excited).

(** ** Session 1: qubit-level benchmarks and measurement error mitigation *)

(** *** Circuits *)

Module circuit.

Inductive Gate : Type :=
| x (qubit : nat)
| iden (qubit : nat)
| h (qubit : nat)
| cx (control target : nat)
| barrier (qubits : list nat)
| measure (qubit clbit : nat).

Record QuantumCircuit : Type := mkCircuit {
  name : string;
  num_qubits : nat;
  num_clbits : nat;
  data : list Gate
}.

Definition is_iden_on (qubit : nat) (g : Gate) : bool :=
  match g with
  | iden q => Nat.eqb q qubit
  | _ => false
  end.

Definition is_x (g : Gate) : bool :=
  match g with
  | x _ => true
  | _ => false
  end.

(** The number of identity gates a circuit applies to a qubit. *)
Definition count_iden (qubit : nat) (c : QuantumCircuit) : nat :=
  length (filter (is_iden_on qubit) (data c)).

End circuit.

(** *** The T1 experiment design *)

Module T1.

(** [(np.linspace(10, 300, 50)).astype(int)] *)
Definition num_of_gates : list Z := map np.astype_int (np.linspace 10 300 50).
Definition gate_time : Q := 1 # 10.
Definition qubits : list nat := [0%nat].

(** The T1 time assumed for the noise model, and the initial guess and
    the bounds handed to [T1Fitter], in the order (A, T1, B). *)
Definition t1_true : Q := 25.
Definition fit_p0 : list Q := [1; t1_true; 0].
Definition fit_bounds : list Q * list Q := ([0; 0; -(1)], [2; 40; 1]).

End T1.

(** *** The T2 experiment designs *)

Module T2.

(** [(np.linspace(5, 150, 25)).astype(int)] *)
Definition num_of_gates : list Z := map np.astype_int (np.linspace 5 150 25).

(** The T2 time assumed for the noise model, and the initial guess and
    the bounds handed to [T2Fitter], in the order (A, T2, B). *)
Definition t2_true : Q := 25.
Definition fit_p0 : list Q := [1 # 2; t2_true; 1 # 2].
Definition fit_bounds : list Q * list Q :=
  ([-(1 # 2); 0; -(1 # 2)], [3 # 2; 40; 3 # 2]).

(** The initial guess and the bounds handed to [T2StarFitter], in the
    order (A, T2*, f, phi, B); [osc_freq] is the oscillation frequency
    that [t2star_circuits] returns. *)
Definition star_fit_p0 (osc_freq : R) : list R :=
  [1 / 2; Q2R t2_true; osc_freq; 0; 1 / 2]%R.
Definition star_fit_bounds (osc_freq : R) : list R * list R :=
  ([- (1 / 2); 0; 0; - PI; - (1 / 2)]%R,
   [3 / 2; 40; 2 * osc_freq; PI; 3 / 2]%R).

End T2.

(** An initial guess that respects its bounds, parameter by parameter. *)
Definition within_bounds {A : Type} (le : A -> A -> Prop) (p0 : list A)
           (bounds : list A * list A) : Prop :=
  Forall2 le (fst bounds) p0 /\ Forall2 le p0 (snd bounds).

(** The delay of one qubit: identity gates separated by barriers. *)
Definition pad_id_gates (qubit : nat) (num_of_id_gates : nat) : list circuit.Gate :=
  flat_map (fun _ => [circuit.barrier [qubit]; circuit.iden qubit])
           (seq 0 num_of_id_gates)
    ++ [circuit.barrier [qubit]].

(** Modelled from the spec: [t1_circuits] belongs to the characterization
    library, which the repository imports and does not contain.  The
    notebook describes it: in each circuit the qubit is excited with an X
    gate, waits for some number of identity gates separated by barriers,
    and is measured; with the circuits the function "also returns the
    delay times", which "are calculated as (number of identity gates) *
    (time per identity gate)". *)
Definition t1_circuits (num_of_gates : list Z) (gate_time : Q) (qubits : list nat)
  : list circuit.QuantumCircuit * list Q :=
  let nq := S (fold_right Nat.max 0%nat qubits) in
  let circ (circ_length : Z) :=
    circuit.mkCircuit "t1circuit" nq (length qubits)
      (flat_map (fun qubit =>
                   circuit.x qubit :: pad_id_gates qubit (Z.to_nat circ_length))
                qubits
       ++ [circuit.barrier (seq 0 nq)]
       ++ map (fun qc => circuit.measure (fst qc) (snd qc))
              (combine qubits (seq 0 (length qubits)))) in
  (map circ num_of_gates,
   map (fun n => (gate_time * inject_Z n)%Q) num_of_gates).

(** [t1_circs, t1_xdata = t1_circuits(num_of_gates, gate_time, qubits)] *)
Definition t1_circs : list circuit.QuantumCircuit :=
  fst (t1_circuits T1.num_of_gates T1.gate_time T1.qubits).
Definition t1_xdata : list Q :=
  snd (t1_circuits T1.num_of_gates T1.gate_time T1.qubits).

(** *** The readout error of each qubit *)

(** A Python dictionary with string keys. *)
Fixpoint dict_get {V : Type} (dict : list (string * V)) (key : string) : option V :=
  match dict with
  | [] => None
  | (k, v) :: tl => if String.eqb k key then Some v else dict_get tl key
  end.

(** [backend.properties()]: for each qubit, its named properties, each a
    value, a float, with the date it was measured on. *)
Definition BackendProperties : Type :=
  list (list (string * (np.float64 * string))).

Definition qubit_property (props : BackendProperties) (qubit : nat)
  : option (list (string * (np.float64 * string))) :=
  getitem props qubit.

(** What the loop prints for one qubit. *)
Record ReadoutReport : Type := mkReport {
  report_qubit : nat;
  report_a : np.float64;
  report_b : np.float64;
  report_error : np.float64
}.

(** The body of the loop [for j in range(5)]. *)
Definition readout_error (props : BackendProperties) (j : nat) : option ReadoutReport :=
  let? pj := qubit_property props j in
  let? va := dict_get pj "prob_meas0_prep1" in
  let a := np.round (fst va) 5 in
  let? pj' := qubit_property props j in
  let? vb := dict_get pj' "prob_meas1_prep0" in
  let b := np.round (fst vb) 5 in
  let error := np.div (np.add a b) (np.of_Z 2) in
  Some (mkReport j a b error).

Definition readout_errors (props : BackendProperties) : option (list ReadoutReport) :=
  omap (readout_error props) (seq 0 5).

(** *** Measurement calibration *)

(** [bin(j)[2:].zfill(n)]: the [n] low binary digits of [j], the most
    significant first. *)
Fixpoint bitstring (n j : nat) : string :=
  match n with
  | O => EmptyString
  | S k => (bitstring k (j / 2) ++ (if Nat.odd j then "1" else "0"))%string
  end.

(** The labels of the [2 ** n] basis states, in counting order. *)
Definition count_keys (n : nat) : list string :=
  map (bitstring n) (seq 0 (2 ^ n)).

Definition is_one (c : option Ascii.ascii) : bool :=
  match c with
  | Some c => Ascii.eqb c "1"%char
  | None => false
  end.

(** Modelled from the spec: [complete_meas_cal] belongs to the mitigation
    library, which the repository imports and does not contain.  The
    notebook describes it: it "returns a list [meas_calibs] of
    QuantumCircuit objects containing the calibration circuits, and a list
    [state_labels] of the calibration state labels"; "each circuit creates
    a basis state", that is, it "simply prepares" the state of its label
    "and then immediately measures the qubits".  A label is read as
    everywhere in the library: its last character is the first qubit of
    [qubit_list]. *)
Definition complete_meas_cal (qubit_list : list nat) (qr : nat) (circlabel : string)
  : list circuit.QuantumCircuit * list string :=
  let n := length qubit_list in
  let state_labels := count_keys n in
  let cal (state : string) :=
    circuit.mkCircuit (circlabel ++ "cal_" ++ state)%string qr n
      (flat_map (fun iq =>
                   if is_one (String.get (n - fst iq - 1) state)
                   then [circuit.x (snd iq)] else [])
                (combine (seq 0 n) qubit_list)
       ++ [circuit.barrier (seq 0 qr)]
       ++ map (fun iq => circuit.measure (snd iq) (fst iq))
              (combine (seq 0 n) qubit_list)) in
  (map cal state_labels, state_labels).

(** [l[i] = v] on a list; out of range is an error. *)
Fixpoint setitem {A : Type} (l : list A) (i : nat) (v : A) : option (list A) :=
  match l, i with
  | [], _ => None
  | _ :: tl, O => Some (v :: tl)
  | y :: tl, S k => let? tl' := setitem tl k v in Some (y :: tl')
  end.

(** One gate on a basis state of the register ([qstate], one bit per
    qubit) and the classical bits.  A Hadamard leaves the basis states:
    this model of the simulator does not run it. *)
Definition apply_gate (g : circuit.Gate) (st : list bool * list bool)
  : option (list bool * list bool) :=
  let (qstate, clbits) := st in
  match g with
  | circuit.x q =>
      let? b := getitem qstate q in
      let? qstate' := setitem qstate q (negb b) in
      Some (qstate', clbits)
  | circuit.iden _ | circuit.barrier _ => Some st
  | circuit.h _ => None
  | circuit.cx c t =>
      let? bc := getitem qstate c in
      let? bt := getitem qstate t in
      let? qstate' := setitem qstate t (xorb bc bt) in
      Some (qstate', clbits)
  | circuit.measure q c =>
      let? b := getitem qstate q in
      let? clbits' := setitem clbits c b in
      Some (qstate, clbits')
  end.

Fixpoint apply_gates (gates : list circuit.Gate) (st : list bool * list bool)
  : option (list bool * list bool) :=
  match gates with
  | [] => Some st
  | g :: rest => let? st' := apply_gate g st in apply_gates rest st'
  end.

(** The key of a counts dictionary: the last classical bit first. *)
Definition counts_key (clbits : list bool) : string :=
  fold_left (fun s (b : bool) => ((if b then "1" else "0") ++ s)%string)
            clbits EmptyString.

(** Modelled from the spec: the simulator is not part of the repository.
    Executed "without noise", a circuit of X gates and measurements
    started in |0...0> gives the same outcome at every shot: the counts
    hold one key, with all the shots. *)
Definition execute_ideal (circuits : list circuit.QuantumCircuit) (shots : nat)
  : option qiskit.Result :=
  omap (fun c =>
          let? st := apply_gates (circuit.data c)
                       (repeat false (circuit.num_qubits c),
                        repeat false (circuit.num_clbits c)) in
          Some (qiskit.Counts [(counts_key (snd st), shots)]))
       circuits.

Definition counts_of (counts : list (string * nat)) (key : string) : nat :=
  match dict_get counts key with
  | Some n => n
  | None => O
  end.

Definition total_counts (counts : list (string * nat)) : nat :=
  fold_right (fun kv acc => (snd kv + acc)%nat) O counts.

(** Modelled from the spec: [CompleteMeasFitter] belongs to the
    mitigation library.  The notebook describes its calibration matrix:
    the entry of row [j] and column [i] is the probability of measuring
    state [j] given preparation of state [i], estimated from the counts
    of the calibration circuit of state [i]. *)
Definition cal_matrix (cal_results : qiskit.Result) (state_labels : list string)
  : option (list (list Q)) :=
  let? columns :=
    omap (fun i =>
            let? counts := qiskit.get_counts cal_results i in
            Some (map (fun measured =>
                         (inject_Z (Z.of_nat (counts_of counts measured))
                          / inject_Z (Z.of_nat (total_counts counts)))%Q)
                      state_labels))
         (seq 0 (length state_labels)) in
  Some (map (fun j => map (fun column => nth j column 0%Q) columns)
            (seq 0 (length state_labels))).

Definition identity_matrix (n : nat) : list (list Q) :=
  map (fun j => map (fun i => if Nat.eqb i j then 1%Q else 0%Q) (seq 0 n))
      (seq 0 n).

Definition matrix_eq (M N : list (list Q)) : Prop :=
  Forall2 (Forall2 Qeq) M N.

(** The calibration cell of the notebook, run without noise. *)
Definition qubit_list : list nat := [0; 1; 2]%nat.
Definition meas_calibs : list circuit.QuantumCircuit :=
  fst (complete_meas_cal qubit_list 3 "my_calibration").
Definition state_labels : list string :=
  snd (complete_meas_cal qubit_list 3 "my_calibration").
Definition cal_results : option qiskit.Result := execute_ideal meas_calibs 1000.

(** The state a circuit prepares before it measures. *)
Definition prepared_state (c : circuit.QuantumCircuit) : option (list bool) :=
  let? st := apply_gates (circuit.data c)
               (repeat false (circuit.num_qubits c),
                repeat false (circuit.num_clbits c)) in
  Some (fst st).

(** ** Auxiliary definitions for the properties below *)

Section Blocks.

Variable backend : pulse.Backend.
Variable chip_qubits : list Qubit.

(** The channels of the barrier over all the qubits of the backend. *)
Definition barrier_channels : list pulse.Channel :=
  nodup pulse.Channel_eq_dec
        (flat_map (pulse.qubit_channels backend) (seq 0 (pulse.n_qubits backend))).

Definition barrier_block : list pulse.Instruction :=
  if (1 <? length barrier_channels)%nat
  then [pulse.RelativeBarrier barrier_channels] else [].

(** The measurement pulse of amplitude [amp]. *)
Definition meas_pulse (amp : Q) : pulse.Pulse :=
  pulse.mkGaussianSquare meas_duration meas_sigma amp meas_width.

(** The measurement part of a readout program: the pulses on the measure
    channels of the chip, then the acquisitions of every qubit. *)
Definition meas_block (amp : Q) : list pulse.Instruction :=
  map (fun qubit => pulse.Play (meas_pulse amp) (m (index qubit))) chip_qubits
    ++ map (fun qubit => pulse.Acquire meas_duration (a qubit) (mem_slot qubit))
           (seq 0 (pulse.n_qubits backend)).

End Blocks.

(** The stop time of a scheduled instruction. *)
Definition stop_time (ti : Z * pulse.Instruction) : Z :=
  (fst ti + pulse.inst_duration (snd ti))%Z.

(** A float rounded to [decimals] decimal places as numpy does it: when
    [v * 10 ** decimals], computed in binary64, is finite, [rounded] is
    the binary64 quotient by [10 ** decimals] of an integer that is at
    most one half away from that product (of [-0.0] when the integer is
    0 and the product is negative). *)
Definition rounded_to (decimals : nat) (v rounded : np.float64) : Prop :=
  let p := np.of_Z (10 ^ Z.of_nat decimals) in
  np.is_finite (np.mul v p) = true ->
  exists n : Z,
    (Qabs (inject_Z n - np.to_Q (np.mul v p)) <= 1 # 2)%Q /\
    (rounded = np.div (np.of_Z n) p \/
     n = 0%Z /\ rounded = np.div (S754_zero true) p).

(** Two scheduled instructions do not overlap: on a channel they share,
    the earlier one stops before the later one starts. *)
Definition no_overlap (earlier later : Z * pulse.Instruction) : Prop :=
  forall c,
    In c (pulse.inst_channels (snd earlier)) ->
    In c (pulse.inst_channels (snd later)) ->
    (stop_time earlier <= fst later)%Z.

(** A schedule delayed by [delay]. *)
Definition shift (delay : Z) (sched : pulse.Schedule) : pulse.Schedule :=
  map (fun ti => ((fst ti + delay)%Z, snd ti)) sched.

(** Every channel a block occupies. *)
Definition block_channels (block : list pulse.Instruction) : list pulse.Channel :=
  flat_map pulse.inst_channels block.

(** *** The value of a binary64 number

    What the properties of binary64 rounding are stated with. *)

(** [2 ^ e] as a rational, for any integer [e]. *)
Definition pow2 (e : Z) : Q := (2 ^ e)%Q.

(** [located x u m l]: [x] lies in [[m * u, (m + 1) * u)], at the place
    [l] says: on [m * u], below the middle, on it, or above it. *)
Definition located (x u : Q) (m : Z) (l : location) : Prop :=
  match l with
  | loc_Exact => (x == inject_Z m * u)%Q
  | loc_Inexact Lt => (inject_Z m * u < x /\ x < (inject_Z m + (1 # 2)) * u)%Q
  | loc_Inexact Eq => (x == (inject_Z m + (1 # 2)) * u)%Q
  | loc_Inexact Gt =>
      ((inject_Z m + (1 # 2)) * u < x /\ x < (inject_Z m + 1) * u)%Q
  end.

(** The sign of a float and its magnitude as a multiple of a power of
    two. *)
Definition represents (r : spec_float) (sx : bool) (k E : Z) : Prop :=
  match r with
  | S754_zero s => s = sx /\ k = 0%Z
  | S754_finite s m' e' =>
      s = sx /\ (inject_Z (Zpos m') * pow2 e' == inject_Z k * pow2 E)%Q
  | _ => False
  end.

(** A probability: a binary64 number between 0 and 1, that is, a zero
    or a positive finite float of value at most 1. *)
Definition is_probability (v : np.float64) : bool :=
  match v with
  | S754_zero _ => true
  | S754_finite false _ _ => Qle_bool (np.to_Q v) 1
  | _ => false
  end.

(** * Properties *)

(** ** [np.argmax] returns the index of a largest element *)

Section ArgmaxSpec.

Variable A : Type.
Variable gtb : A -> A -> bool.
Variable le : A -> A -> Prop.
Variable dflt : A.

Hypothesis le_refl : forall v, le v v.
Hypothesis le_trans : forall u v w, le u v -> le v w -> le u w.
Hypothesis gtb_true : forall u v, gtb u v = true -> le v u.
Hypothesis gtb_false : forall u v, gtb u v = false -> le u v.

(** The invariant of the scan: [pre] is the part of the array already
    seen, [best] the index of a largest element of it. *)
Lemma argmax_from_spec (l pre : list A) (best : nat) (vbest : A) :
  (best < length pre)%nat ->
  nth best pre dflt = vbest ->
  (forall k, (k < length pre)%nat -> le (nth k pre dflt) vbest) ->
  let r := np.argmax_from gtb best vbest (length pre) l in
  (r < length (pre ++ l))%nat /\
  forall k, (k < length (pre ++ l))%nat ->
            le (nth k (pre ++ l) dflt) (nth r (pre ++ l) dflt).
Proof.
  revert pre best vbest.
  induction l as [|y tl IH]; intros pre best vbest Hbest Hval Hmax; simpl.
  - rewrite app_nil_r. split; [exact Hbest|].
    intros k Hk. rewrite Hval. now apply Hmax.
  - assert (Hlen : length (pre ++ [y]) = S (length pre))
      by (rewrite length_app; simpl; lia).
    destruct (gtb y vbest) eqn:Hgt.
    + pose proof (IH (pre ++ [y]) (length pre) y) as Hstep.
      rewrite Hlen, <- app_assoc in Hstep. apply Hstep.
      * lia.
      * rewrite app_nth2, Nat.sub_diag by lia. reflexivity.
      * intros k Hk.
        destruct (Nat.eq_dec k (length pre)) as [->|Hne].
        -- rewrite app_nth2, Nat.sub_diag by lia. apply le_refl.
        -- rewrite app_nth1 by lia.
           apply le_trans with vbest; [apply Hmax; lia | now apply gtb_true].
    + pose proof (IH (pre ++ [y]) best vbest) as Hstep.
      rewrite Hlen, <- app_assoc in Hstep. apply Hstep.
      * lia.
      * rewrite app_nth1 by lia. exact Hval.
      * intros k Hk.
        destruct (Nat.eq_dec k (length pre)) as [->|Hne].
        -- rewrite app_nth2, Nat.sub_diag by lia. now apply gtb_false.
        -- rewrite app_nth1 by lia. apply Hmax. lia.
Qed.

Lemma argmax_spec (l : list A) :
  l <> [] ->
  exists r, np.argmax gtb l = Some r /\
            (r < length l)%nat /\
            forall k, (k < length l)%nat -> le (nth k l dflt) (nth r l dflt).
Proof.
  destruct l as [|y tl]; [congruence|]. intros _.
  exists (np.argmax_from gtb 0 y 1 tl). split; [reflexivity|].
  apply (argmax_from_spec tl [y] 0 y); simpl.
  - lia.
  - reflexivity.
  - intros k Hk. assert (k = 0)%nat as -> by lia. apply le_refl.
Qed.

End ArgmaxSpec.

Lemma Rgtb_true (u v : R) : Rgtb u v = true -> (v <= u)%R.
Proof. unfold Rgtb. destruct (Rlt_dec v u); [lra | discriminate]. Qed.

Lemma Rgtb_true_lt (u v : R) : Rgtb u v = true -> (v < u)%R.
Proof. unfold Rgtb. destruct (Rlt_dec v u); [intros _; assumption | discriminate]. Qed.

Lemma Rgtb_false (u v : R) : Rgtb u v = false -> (u <= v)%R.
Proof. unfold Rgtb. destruct (Rlt_dec v u); [discriminate | lra]. Qed.

Lemma argmax_R (l : list R) :
  l <> [] ->
  exists r, np.argmax Rgtb l = Some r /\
            (r < length l)%nat /\
            forall k, (k < length l)%nat -> (nth k l 0 <= nth r l 0)%R.
Proof.
  apply (argmax_spec R Rgtb Rle 0%R).
  - intros v. lra.
  - intros u v w. lra.
  - exact Rgtb_true.
  - exact Rgtb_false.
Qed.

(** ** The amplitude sweep *)

Lemma length_linspace (start stop : Q) (num : nat) :
  length (np.linspace start stop num) = num.
Proof.
  destruct num as [|[|n]]; try reflexivity.
  unfold np.linspace. rewrite length_app, length_map, length_seq. simpl. lia.
Qed.

Lemma length_amps : length amps = n_exps.
Proof. apply length_linspace. Qed.

(** C1. The calibrated amplitude is the element of the sweep
    [amps = np.linspace(0, max_amp, n_exps)] at the index that maximizes
    the centroid separations: with one separation per amplitude, the cell
    runs without an exception, no separation exceeds the one at
    [optimal_idx], and [optimal_amp = amps[optimal_idx]] is a member of
    the sweep. *)
Theorem optimal_amp_maximizes_separation (centroid_distances : list R) :
  length centroid_distances = n_exps ->
  exists optimal_idx optimal_amp,
    optimal centroid_distances = Some (optimal_idx, optimal_amp) /\
    np.argmax Rgtb centroid_distances = Some optimal_idx /\
    (optimal_idx < n_exps)%nat /\
    (forall i, (i < n_exps)%nat ->
               (nth i centroid_distances 0 <= nth optimal_idx centroid_distances 0)%R) /\
    getitem amps optimal_idx = Some optimal_amp /\
    In optimal_amp (np.linspace 0 max_amp n_exps).
Proof.
  intros Hlen.
  destruct (argmax_R centroid_distances) as (r & Harg & Hr & Hmax).
  { intros ->. discriminate Hlen. }
  rewrite Hlen in Hr, Hmax.
  destruct (nth_error amps r) as [amp|] eqn:Hamp.
  - exists r, amp. unfold optimal, getitem. rewrite Harg. simpl obind.
    rewrite Hamp.
    split; [reflexivity|]. split; [reflexivity|]. split; [exact Hr|].
    split; [exact Hmax|]. split; [reflexivity|].
    change (np.linspace 0 max_amp n_exps) with amps.
    apply nth_error_In with r. exact Hamp.
  - apply nth_error_None in Hamp. rewrite length_amps in Hamp. lia.
Qed.

Lemma optimal_amp_maximizes_separation_witness :
  let centroid_distances := [0; 1; 2; 5; 9; 7; 9; 3; 2; 1]%R in
  length centroid_distances = n_exps /\
  exists optimal_idx optimal_amp,
    optimal centroid_distances = Some (optimal_idx, optimal_amp) /\
    np.argmax Rgtb centroid_distances = Some optimal_idx /\
    (optimal_idx < n_exps)%nat /\
    (forall i, (i < n_exps)%nat ->
               (nth i centroid_distances 0 <= nth optimal_idx centroid_distances 0)%R) /\
    getitem amps optimal_idx = Some optimal_amp /\
    In optimal_amp (np.linspace 0 max_amp n_exps).
Proof.
  split; [reflexivity|].
  apply (optimal_amp_maximizes_separation [0; 1; 2; 5; 9; 7; 9; 3; 2; 1]%R).
  reflexivity.
Defined.

(** ** List comprehensions that may raise *)

Lemma omap_length {A B : Type} (f : A -> option B) (l : list A) (ys : list B) :
  omap f l = Some ys -> length ys = length l.
Proof.
  revert ys. induction l as [|y tl IH]; simpl; intros ys H.
  - injection H as <-. reflexivity.
  - destruct (f y) as [b|]; simpl in H; [|discriminate].
    destruct (omap f tl) as [bs|]; simpl in H; [|discriminate].
    injection H as <-. simpl. f_equal. now apply IH.
Qed.

Lemma omap_nth_error {A B : Type} (f : A -> option B) (l : list A) (ys : list B) :
  omap f l = Some ys ->
  forall i v, nth_error l i = Some v ->
              exists y, f v = Some y /\ nth_error ys i = Some y.
Proof.
  revert ys. induction l as [|y tl IH]; simpl; intros ys H i v Hi.
  - destruct i; discriminate.
  - destruct (f y) as [b|] eqn:Hb; simpl in H; [|discriminate].
    destruct (omap f tl) as [bs|]; simpl in H; [|discriminate].
    injection H as <-.
    destruct i as [|i]; simpl in Hi.
    + injection Hi as <-. exists b. split; [exact Hb | reflexivity].
    + simpl. now apply IH.
Qed.

Lemma omap_none {A B : Type} (f : A -> option B) (l : list A) :
  omap f l = None -> exists v, In v l /\ f v = None.
Proof.
  induction l as [|y tl IH]; simpl; intros H; [discriminate|].
  destruct (f y) as [b|] eqn:Hb; simpl in H.
  - destruct (omap f tl) as [bs|]; simpl in H; [discriminate|].
    destruct IH as (v & Hv & Hfv); [reflexivity|].
    exists v. split; [now right | exact Hfv].
  - exists y. split; [now left | exact Hb].
Qed.

(** ** The exercises of the pulse notebook *)

(** C9. [calculate_centroid_separation] does not return the Euclidean
    distance that its docstring promises: its body is the docstring, so
    for every pair of centroid locations the call returns [None], which
    is neither a float nor a complex number; for the centroids [0] and
    [3 + 4j], at distance 5, it does not return 5.  [calculate_distances]
    returns [None] as well, for every result, and not the array that its
    docstring describes. *)
Theorem calculate_centroid_separation_returns_None :
  (forall ground_loc excited_loc : PyObject,
      calculate_centroid_separation ground_loc excited_loc = PyNone) /\
  calculate_centroid_separation (PyComplex (mkC 0 0)) (PyComplex (mkC 3 4))
    <> PyFloat 5 /\
  (forall ground_loc excited_loc (v : R),
      calculate_centroid_separation ground_loc excited_loc <> PyFloat v) /\
  (forall result : qiskit.Result,
      calculate_distances result = PyNone /\
      forall values, calculate_distances result <> PyArray values).
Proof.
  split; [reflexivity|]. split; [discriminate|]. split; [discriminate|].
  intros result. split; [reflexivity | discriminate].
Qed.

(** ** Left alignment of a block *)

Lemma Channel_eqb_eq (c1 c2 : pulse.Channel) :
  pulse.Channel_eqb c1 c2 = true <-> c1 = c2.
Proof.
  destruct c1, c2; simpl; try (split; [discriminate | congruence]);
    rewrite Nat.eqb_eq; split; congruence.
Qed.

Lemma occupies_In (c : pulse.Channel) (channels : list pulse.Channel) :
  existsb (pulse.Channel_eqb c) channels = true <-> In c channels.
Proof.
  rewrite existsb_exists. split.
  - intros (c' & Hin & Heq). apply Channel_eqb_eq in Heq. now subst.
  - intros Hin. exists c. split; [exact Hin | now apply Channel_eqb_eq].
Qed.

Lemma ch_stop_time_ge (tl : pulse.Timeline) (channels : list pulse.Channel)
      (c : pulse.Channel) :
  In c channels -> (tl c <= pulse.ch_stop_time tl channels)%Z.
Proof.
  unfold pulse.ch_stop_time.
  induction channels as [|c' tl' IH]; simpl; intros Hin; [contradiction|].
  destruct Hin as [->|Hin]; [lia|]. specialize (IH Hin). lia.
Qed.

(** Left alignment keeps the instructions and their order. *)
Lemma push_left_append_instructions (block : list pulse.Instruction)
      (tl : pulse.Timeline) :
  map snd (pulse.push_left_append tl block) = block.
Proof.
  revert tl. induction block as [|i rest IH]; simpl; intros tl; [reflexivity|].
  now rewrite IH.
Qed.

Lemma align_left_instructions (block : list pulse.Instruction) :
  map snd (pulse.align_left block) = block.
Proof. apply push_left_append_instructions. Qed.

(** Channels that are busy until [T] stay so: whatever is appended to
    one of them starts at [T] or later. *)
Lemma push_left_append_after (busy : pulse.Channel -> Prop) (T : Z)
      (block : list pulse.Instruction) :
  Forall (fun i => (0 <= pulse.inst_duration i)%Z) block ->
  forall tl : pulse.Timeline,
    (forall c, busy c -> (T <= tl c)%Z) ->
    forall t i c,
      In (t, i) (pulse.push_left_append tl block) ->
      In c (pulse.inst_channels i) -> busy c -> (T <= t)%Z.
Proof.
  induction 1 as [|i0 rest Hdur Hrest IH]; simpl; intros tl Htl t i c Hin Hc Hbusy;
    [contradiction|].
  destruct Hin as [Heq|Hin].
  - injection Heq as <- <-.
    pose proof (ch_stop_time_ge tl _ c Hc). specialize (Htl c Hbusy). lia.
  - apply (IH _) with (t := t) (i := i) (c := c) in Hin; auto.
    intros c' Hc'. unfold pulse.occupy.
    destruct (existsb (pulse.Channel_eqb c') (pulse.inst_channels i0)) eqn:Hocc.
    + apply occupies_In in Hocc.
      pose proof (ch_stop_time_ge tl _ c' Hocc). specialize (Htl c' Hc'). lia.
    + now apply Htl.
Qed.

(** ** The readout program *)

Lemma meas_pulse_accepted (amp : Q) :
  (Qabs amp <= 1)%Q ->
  pulse.GaussianSquare meas_duration meas_sigma amp meas_width
  = Some (meas_pulse amp).
Proof.
  intros Hamp. unfold pulse.GaussianSquare, pulse.validate_parameters.
  apply Qle_bool_iff in Hamp. rewrite Hamp. reflexivity.
Qed.

Lemma meas_pulse_refused (amp : Q) :
  (1 < Qabs amp)%Q ->
  pulse.GaussianSquare meas_duration meas_sigma amp meas_width = None.
Proof.
  intros Hamp. unfold pulse.GaussianSquare, pulse.validate_parameters.
  destruct (Qle_bool (Qabs amp) 1) eqn:Hle; [|reflexivity].
  apply Qle_bool_iff in Hle. exfalso. Lqa.lra.
Qed.

Lemma for_append {A : Type} (f : A -> pulse.Instruction) (l : list A)
      (ctx : pulse.Context) :
  pulse.for_ l (fun v => pulse.append_instruction (f v)) ctx
  = Some (tt, pulse.mkContext (pulse.backend ctx) (pulse.block ctx ++ map f l)).
Proof.
  revert ctx. induction l as [|y tl IH]; intros ctx; simpl.
  - destruct ctx. simpl. now rewrite app_nil_r.
  - unfold pulse.bind, pulse.append_instruction at 1. rewrite IH. simpl.
    now rewrite <- app_assoc.
Qed.

Section Readout.

Variable backend : pulse.Backend.
Variable chip_qubits : list Qubit.
Variable x180_pulses : list (option pulse.Pulse).

Let prepare := prepare_meas_cal_exp backend chip_qubits x180_pulses.

(** What the body of [prepare_meas_cal_exp] appends after the optional
    excitation. *)
Lemma prepare_body (amp : Q) (before : list pulse.Instruction) :
  pulse.bind pulse.num_qubits (fun n =>
    pulse.bind (pulse.barrier (seq 0 n)) (fun _ =>
      pulse.bind (pulse.for_ chip_qubits (fun qubit =>
                    pulse.play (Some (meas_pulse amp)) (m (index qubit)))) (fun _ =>
        pulse.bind pulse.num_qubits (fun n' =>
          pulse.for_ (seq 0 n') (fun qubit =>
            pulse.acquire meas_duration (a qubit) (mem_slot qubit))))))
    (pulse.mkContext backend before)
  = Some (tt, pulse.mkContext backend
                (before ++ barrier_block backend
                        ++ meas_block backend chip_qubits amp)).
Proof.
  unfold pulse.bind at 1 2, pulse.num_qubits at 1, pulse.barrier. simpl.
  unfold barrier_block, barrier_channels, meas_block.
  set (channels := nodup _ _).
  destruct (1 <? length channels)%nat.
  - unfold pulse.append_instruction at 1. simpl.
    unfold pulse.bind at 1, pulse.play. rewrite for_append. simpl.
    unfold pulse.bind, pulse.num_qubits, pulse.acquire. simpl.
    rewrite for_append. simpl. now rewrite <- !app_assoc.
  - unfold pulse.bind at 1, pulse.play. rewrite for_append. simpl.
    unfold pulse.bind, pulse.num_qubits, pulse.acquire. simpl.
    rewrite for_append. simpl. now rewrite <- !app_assoc.
Qed.

Lemma prepare_ground (amp : Q) :
  (Qabs amp <= 1)%Q ->
  prepare amp false
  = Some (pulse.align_left
            (barrier_block backend ++ meas_block backend chip_qubits amp)).
Proof.
  intros Hamp. unfold prepare, prepare_meas_cal_exp.
  rewrite (meas_pulse_accepted amp Hamp). cbn [obind]. unfold pulse.build.
  unfold pulse.bind at 1, pulse.ret.
  rewrite (prepare_body amp []). reflexivity.
Qed.

Lemma prepare_excited (amp : Q) (x180 : pulse.Pulse) :
  (Qabs amp <= 1)%Q ->
  getitem x180_pulses 0 = Some (Some x180) ->
  prepare amp true
  = Some (pulse.align_left
            (pulse.Play x180 (d 0)
               :: barrier_block backend ++ meas_block backend chip_qubits amp)).
Proof.
  intros Hamp Hx. unfold prepare, prepare_meas_cal_exp.
  rewrite (meas_pulse_accepted amp Hamp). cbn [obind]. unfold pulse.build.
  unfold pulse.bind at 1 2, pulse.lift. rewrite Hx.
  unfold pulse.play at 1, pulse.append_instruction at 1.
  cbn [pulse.backend pulse.block app].
  rewrite (prepare_body amp [pulse.Play x180 (d 0)]). reflexivity.
Qed.

(** An amplitude of norm above 1 is refused when the measurement pulse
    is built, before the builder context opens. *)
Lemma prepare_refused (amp : Q) (prep_excited : bool) :
  (1 < Qabs amp)%Q -> prepare amp prep_excited = None.
Proof.
  intros Hamp. unfold prepare, prepare_meas_cal_exp.
  now rewrite (meas_pulse_refused amp Hamp).
Qed.

(** Without an x180 pulse for qubit 0 the excited program cannot be
    built: [x180_pulses[0]] raises on an empty list, and [pulse.play]
    raises on [None]. *)
Lemma prepare_excited_raises (amp : Q) :
  getitem x180_pulses 0 = None \/ getitem x180_pulses 0 = Some None ->
  prepare amp true = None.
Proof.
  intros Hx. unfold prepare, prepare_meas_cal_exp.
  destruct (pulse.GaussianSquare meas_duration meas_sigma amp meas_width)
    as [meas|]; [|reflexivity].
  cbn [obind]. unfold pulse.build.
  destruct Hx as [Hx|Hx]; unfold pulse.bind at 1 2, pulse.lift; now rewrite Hx.
Qed.

End Readout.

(** ** The barrier over all the qubits *)

Lemma barrier_channels_In (backend : pulse.Backend) (qubit : nat) :
  (qubit < pulse.n_qubits backend)%nat ->
  In (d qubit) (barrier_channels backend) /\
  In (m qubit) (barrier_channels backend) /\
  In (a qubit) (barrier_channels backend).
Proof.
  intros Hq. unfold barrier_channels.
  assert (Hin : forall c, In c [d qubit; m qubit; a qubit] ->
                          In c (nodup pulse.Channel_eq_dec
                                  (flat_map (pulse.qubit_channels backend)
                                            (seq 0 (pulse.n_qubits backend))))).
  { intros c Hc. apply nodup_In. apply in_flat_map. exists qubit. split.
    - apply in_seq. lia.
    - unfold pulse.qubit_channels. apply in_or_app. left. exact Hc. }
  repeat split; apply Hin; simpl; auto.
Qed.

Lemma two_distinct_length {A : Type} (l : list A) (u v : A) :
  In u l -> In v l -> u <> v -> (1 < length l)%nat.
Proof.
  destruct l as [|a1 [|a2 l']]; simpl; intros Hu Hv Hne.
  - contradiction.
  - destruct Hu as [<-|[]], Hv as [<-|[]]. congruence.
  - lia.
Qed.

Lemma barrier_block_present (backend : pulse.Backend) :
  (0 < pulse.n_qubits backend)%nat ->
  barrier_block backend = [pulse.RelativeBarrier (barrier_channels backend)].
Proof.
  intros Hn. unfold barrier_block.
  destruct (barrier_channels_In backend 0 Hn) as (Hd & Hm & _).
  assert (Hlen : (1 < length (barrier_channels backend))%nat).
  { apply (two_distinct_length _ (d 0) (m 0)); [exact Hd | exact Hm | discriminate]. }
  apply Nat.ltb_lt in Hlen. now rewrite Hlen.
Qed.

Lemma align_left_In (block : list pulse.Instruction) (t : Z) (i : pulse.Instruction) :
  In (t, i) (pulse.align_left block) -> In i block.
Proof.
  intros Hin. rewrite <- (align_left_instructions block).
  apply in_map_iff. now exists (t, i).
Qed.

Lemma align_left_scheduled (block : list pulse.Instruction) (i : pulse.Instruction) :
  In i block -> exists t, In (t, i) (pulse.align_left block).
Proof.
  intros Hin. rewrite <- (align_left_instructions block) in Hin.
  apply in_map_iff in Hin. destruct Hin as ([t i'] & Heq & Hin).
  simpl in Heq. subst i'. now exists t.
Qed.

Lemma meas_block_durations (backend : pulse.Backend) (chip_qubits : list Qubit)
      (amp : Q) :
  Forall (fun i => (0 <= pulse.inst_duration i)%Z)
         (meas_block backend chip_qubits amp).
Proof.
  apply Forall_forall. intros i Hi. unfold meas_block in Hi.
  apply in_app_or in Hi. destruct Hi as [Hi|Hi];
    apply in_map_iff in Hi; destruct Hi as (q & <- & _); simpl;
    unfold meas_duration; lia.
Qed.

(** A pulse played on a measure channel is a measurement pulse of a qubit
    of the chip. *)
Lemma meas_block_play (backend : pulse.Backend) (chip_qubits : list Qubit)
      (amp : Q) (p : pulse.Pulse) (qubit : nat) :
  In (pulse.Play p (pulse.MeasureChannel qubit)) (meas_block backend chip_qubits amp) ->
  p = meas_pulse amp /\ exists q, In q chip_qubits /\ index q = qubit.
Proof.
  unfold meas_block. intros Hi. apply in_app_or in Hi. destruct Hi as [Hi|Hi];
    apply in_map_iff in Hi; destruct Hi as (q & Heq & Hq); [|discriminate].
  injection Heq as <- <-. split; [reflexivity|]. now exists q.
Qed.

Lemma push_left_append_cons (tl : pulse.Timeline) (i : pulse.Instruction)
      (rest : list pulse.Instruction) :
  pulse.push_left_append tl (i :: rest)
  = (pulse.ch_stop_time tl (pulse.inst_channels i), i)
      :: pulse.push_left_append
           (pulse.occupy tl (pulse.inst_channels i)
              (pulse.ch_stop_time tl (pulse.inst_channels i)
               + pulse.inst_duration i)%Z)
           rest.
Proof. reflexivity. Qed.

(** In the excited program the pulse on the measure channel of a qubit of
    the backend starts after the x180 pulse has stopped. *)
Lemma excitation_precedes_measurement (backend : pulse.Backend)
      (chip_qubits : list Qubit) (amp : Q) (x180 p : pulse.Pulse)
      (t : Z) (qubit : nat) :
  (qubit < pulse.n_qubits backend)%nat ->
  In (t, pulse.Play p (pulse.MeasureChannel qubit))
     (pulse.align_left
        (pulse.Play x180 (d 0)
           :: barrier_block backend ++ meas_block backend chip_qubits amp)) ->
  (pulse.pulse_duration x180 <= t)%Z.
Proof.
  intros Hq Hin.
  assert (Hn : (0 < pulse.n_qubits backend)%nat) by lia.
  rewrite (barrier_block_present backend Hn) in Hin.
  unfold pulse.align_left in Hin. simpl app in Hin.
  rewrite !push_left_append_cons in Hin.
  set (tl0 := fun _ : pulse.Channel => 0%Z) in Hin.
  set (tl1 := pulse.occupy tl0 _ _) in Hin.
  set (Tb := pulse.ch_stop_time tl1 _) in Hin.
  set (tl2 := pulse.occupy tl1 _ _) in Hin.
  assert (Hd0 : tl1 (d 0) = pulse.pulse_duration x180) by reflexivity.
  assert (HTb : (pulse.pulse_duration x180 <= Tb)%Z).
  { rewrite <- Hd0. apply ch_stop_time_ge.
    now apply (barrier_channels_In backend 0 Hn). }
  destruct Hin as [Heq|[Heq|Hin]]; [discriminate Heq | discriminate Heq |].
  apply (push_left_append_after
           (fun c => In c (barrier_channels backend)) Tb
           (meas_block backend chip_qubits amp)
           (meas_block_durations backend chip_qubits amp) tl2)
    with (c := pulse.MeasureChannel qubit) in Hin.
  - lia.
  - intros c Hc. subst tl2. unfold pulse.occupy.
    apply occupies_In in Hc. simpl pulse.inst_channels. rewrite Hc.
    simpl pulse.inst_duration. lia.
  - simpl. now left.
  - now apply (barrier_channels_In backend qubit Hq).
Qed.

(** What a call that returns has built. *)
Lemma prepare_some (backend : pulse.Backend) (chip_qubits : list Qubit)
      (x180_pulses : list (option pulse.Pulse)) (amp : Q) (prep_excited : bool)
      (sched : pulse.Schedule) :
  prepare_meas_cal_exp backend chip_qubits x180_pulses amp prep_excited
    = Some sched ->
  (Qabs amp <= 1)%Q /\
  exists before,
    sched = pulse.align_left
              (before ++ barrier_block backend
                      ++ meas_block backend chip_qubits amp) /\
    ((prep_excited = false /\ before = []) \/
     (prep_excited = true /\
      exists x180, getitem x180_pulses 0 = Some (Some x180) /\
                   before = [pulse.Play x180 (d 0)])).
Proof.
  intros Hsched.
  destruct (Qlt_le_dec 1 (Qabs amp)) as [Hbig|Hamp].
  { rewrite (prepare_refused backend chip_qubits x180_pulses amp prep_excited Hbig)
      in Hsched. discriminate. }
  split; [exact Hamp|].
  destruct prep_excited.
  - destruct (getitem x180_pulses 0) as [[x180|]|] eqn:Hx.
    + rewrite (prepare_excited backend chip_qubits x180_pulses amp x180 Hamp Hx)
        in Hsched. injection Hsched as <-.
      exists [pulse.Play x180 (d 0)]. split; [reflexivity|].
      right. split; [reflexivity|]. now exists x180.
    + rewrite (prepare_excited_raises backend chip_qubits x180_pulses amp)
        in Hsched by (now right). discriminate.
    + rewrite (prepare_excited_raises backend chip_qubits x180_pulses amp)
        in Hsched by (now left). discriminate.
  - rewrite (prepare_ground backend chip_qubits x180_pulses amp Hamp) in Hsched.
    injection Hsched as <-. exists []. split; [reflexivity|]. now left.
Qed.

(** C8, as stated, fails in three ways.  Not every amplitude gives a
    schedule: the library refuses a pulse whose amplitude has a norm
    above 1, so [prepare_meas_cal_exp(2.0, prep_excited)] raises for both
    values of [prep_excited], with the x180 pulse in place.  In the
    notebook as it stands ([x180 = None]) the excited program raises at
    the amplitude 0.01 as well.  And with the x180 pulse in place the
    excitation does not precede the measurement pulse of a chip qubit
    that is not a qubit of the backend: on a backend of one qubit, the
    measurement pulse of qubit 1 starts at time 0, with the x180 pulse. *)
Lemma prepare_meas_cal_exp_not_for_every_input :
  let backend := pulse.mkBackend 5 (fun qubit => [qubit]) in
  let chip_qubits := map mkQubit (seq 0 5) in
  let x180 := pulse.mkDrag 160 (1 # 5) 40 (1 # 2) in
  prepare_meas_cal_exp backend chip_qubits [Some x180] 2 false = None /\
  prepare_meas_cal_exp backend chip_qubits [Some x180] 2 true = None /\
  prepare_meas_cal_exp backend chip_qubits (x180_pulses_exercise chip_qubits)
                       (1 # 100) true = None /\
  exists excited,
    prepare_meas_cal_exp (pulse.mkBackend 1 (fun qubit => [qubit]))
                         [mkQubit 0; mkQubit 1] [Some x180] (1 # 100) true
      = Some excited /\
    In (0%Z, pulse.Play x180 (pulse.DriveChannel 0)) excited /\
    In (0%Z, pulse.Play (pulse.mkGaussianSquare 11200 54 (1 # 100) (11200 - 320))
                        (pulse.MeasureChannel 1)) excited.
Proof.
  cbv zeta. split; [apply prepare_refused; reflexivity|].
  split; [apply prepare_refused; reflexivity|].
  split; [apply prepare_excited_raises; right; reflexivity|].
  eexists. split; [reflexivity|]. split; [now left|].
  right. right. right. now left.
Qed.

(** C8, amended.  [prepare_meas_cal_exp(amp, prep_excited)] raises when
    the amplitude has a norm above 1 and when [prep_excited] is true and
    [x180_pulses[0]] is missing or [None], and in no other case.  The
    schedule it otherwise builds plays the GaussianSquare measurement
    pulse (duration 11200, sigma 54, width 11200 - 320, amplitude [amp])
    on the measure channel of every qubit of the chip and acquires for
    the full measurement duration on the acquire channel of every qubit
    of the backend.  With [prep_excited] the program starts, at time 0,
    with the x180 pulse on the drive channel of qubit 0, followed by a
    barrier over the channels of all the qubits of the backend, and the
    measurement pulse of a qubit of the backend starts when the x180
    pulse has stopped or later; without [prep_excited] the program holds
    the barrier, the measurement pulses and the acquisitions only. *)
Theorem prepare_meas_cal_exp_schedule (backend : pulse.Backend)
        (chip_qubits : list Qubit) (x180_pulses : list (option pulse.Pulse))
        (amp : Q) (prep_excited : bool) :
  (prepare_meas_cal_exp backend chip_qubits x180_pulses amp prep_excited = None
   <-> (1 < Qabs amp)%Q
       \/ (prep_excited = true /\
           (getitem x180_pulses 0 = None \/ getitem x180_pulses 0 = Some None))) /\
  forall sched : pulse.Schedule,
    prepare_meas_cal_exp backend chip_qubits x180_pulses amp prep_excited
      = Some sched ->
    (forall q, In q chip_qubits ->
       exists t,
         In (t, pulse.Play (pulse.mkGaussianSquare 11200 54 amp (11200 - 320))
                           (pulse.MeasureChannel (index q))) sched) /\
    (forall qubit, (qubit < pulse.n_qubits backend)%nat ->
       exists t,
         In (t, pulse.Acquire 11200 (pulse.AcquireChannel qubit)
                              (pulse.MemorySlot qubit)) sched) /\
    (prep_excited = false ->
       map snd sched = barrier_block backend ++ meas_block backend chip_qubits amp) /\
    (prep_excited = true ->
       exists x180,
         getitem x180_pulses 0 = Some (Some x180) /\
         map snd sched
           = pulse.Play x180 (pulse.DriveChannel 0)
               :: barrier_block backend ++ meas_block backend chip_qubits amp /\
         In (0%Z, pulse.Play x180 (pulse.DriveChannel 0)) sched /\
         forall t p qubit,
           (qubit < pulse.n_qubits backend)%nat ->
           In (t, pulse.Play p (pulse.MeasureChannel qubit)) sched ->
           (stop_time (0%Z, pulse.Play x180 (pulse.DriveChannel 0)) <= t)%Z) /\
    ((0 < pulse.n_qubits backend)%nat ->
       barrier_block backend = [pulse.RelativeBarrier (barrier_channels backend)] /\
       forall qubit, (qubit < pulse.n_qubits backend)%nat ->
         In (pulse.DriveChannel qubit) (barrier_channels backend) /\
         In (pulse.MeasureChannel qubit) (barrier_channels backend) /\
         In (pulse.AcquireChannel qubit) (barrier_channels backend)).
Proof.
  split.
  { split.
    - intros Hnone.
      destruct (Qlt_le_dec 1 (Qabs amp)) as [Hbig|Hamp]; [now left|]. right.
      destruct prep_excited.
      + split; [reflexivity|].
        destruct (getitem x180_pulses 0) as [[x180|]|] eqn:Hx; auto.
        rewrite (prepare_excited backend chip_qubits x180_pulses amp x180 Hamp Hx)
          in Hnone. discriminate.
      + rewrite (prepare_ground backend chip_qubits x180_pulses amp Hamp) in Hnone.
        discriminate.
    - intros [Hbig|[-> Hx]];
        [now apply prepare_refused | now apply prepare_excited_raises]. }
  intros sched Hsched. apply prepare_some in Hsched.
  destruct Hsched as (Hamp & before & -> & Hbefore).
  assert (Hplay : forall q, In q chip_qubits ->
            In (pulse.Play (pulse.mkGaussianSquare 11200 54 amp (11200 - 320))
                           (pulse.MeasureChannel (index q)))
               (before ++ barrier_block backend
                       ++ meas_block backend chip_qubits amp)).
  { intros q Hq. apply in_or_app. right. apply in_or_app. right.
    unfold meas_block. apply in_or_app. left. apply in_map_iff. now exists q. }
  assert (Hacq : forall qubit, (qubit < pulse.n_qubits backend)%nat ->
            In (pulse.Acquire 11200 (pulse.AcquireChannel qubit)
                              (pulse.MemorySlot qubit))
               (before ++ barrier_block backend
                       ++ meas_block backend chip_qubits amp)).
  { intros qubit Hq. apply in_or_app. right. apply in_or_app. right.
    unfold meas_block. apply in_or_app. right.
    apply in_map_iff. exists qubit. split; [reflexivity | apply in_seq; lia]. }
  split; [intros q Hq; now apply align_left_scheduled, Hplay|].
  split; [intros qubit Hq; now apply align_left_scheduled, Hacq|].
  split.
  { intros ->. destruct Hbefore as [[_ ->]|[Hex _]]; [|discriminate Hex].
    apply align_left_instructions. }
  split.
  { intros ->. destruct Hbefore as [[Hex _]|[_ (x180 & Hx & ->)]]; [discriminate Hex|].
    exists x180. split; [exact Hx|].
    split; [apply align_left_instructions|].
    split; [now left|].
    intros t p qubit Hq Hin. unfold stop_time. simpl.
    now apply (excitation_precedes_measurement backend chip_qubits amp x180 p t qubit). }
  intros Hn. split; [now apply barrier_block_present|].
  intros qubit Hq. now apply barrier_channels_In.
Qed.

Lemma prepare_meas_cal_exp_schedule_witness :
  let backend := pulse.mkBackend 5 (fun qubit => [qubit]) in
  let chip_qubits := map mkQubit (seq 0 5) in
  let x180 := pulse.mkDrag 160 (1 # 5) 40 (1 # 2) in
  exists excited : pulse.Schedule,
    prepare_meas_cal_exp backend chip_qubits [Some x180] (1 # 100) true
      = Some excited /\
    (forall q, In q chip_qubits ->
       exists t,
         In (t, pulse.Play (pulse.mkGaussianSquare 11200 54 (1 # 100) (11200 - 320))
                           (pulse.MeasureChannel (index q))) excited) /\
    forall t p qubit,
      (qubit < 5)%nat ->
      In (t, pulse.Play p (pulse.MeasureChannel qubit)) excited -> (160 <= t)%Z.
Proof.
  cbv zeta.
  assert (Hamp : (Qabs (1 # 100) <= 1)%Q) by (apply Qle_bool_iff; reflexivity).
  pose proof (prepare_excited (pulse.mkBackend 5 (fun qubit => [qubit]))
                (map mkQubit (seq 0 5))
                [Some (pulse.mkDrag 160 (1 # 5) 40 (1 # 2))] (1 # 100)
                (pulse.mkDrag 160 (1 # 5) 40 (1 # 2)) Hamp eq_refl) as Hsched.
  destruct (proj2 (prepare_meas_cal_exp_schedule
                     (pulse.mkBackend 5 (fun qubit => [qubit]))
                     (map mkQubit (seq 0 5))
                     [Some (pulse.mkDrag 160 (1 # 5) 40 (1 # 2))] (1 # 100) true)
                  _ Hsched)
    as (Hplay & _ & _ & Hexcited & _).
  destruct (Hexcited eq_refl) as (x180 & Hx & _ & _ & Hafter).
  injection Hx as <-.
  eexists. split; [exact Hsched|]. split; [exact Hplay|].
  intros t p qubit Hq Hin. exact (Hafter t p qubit Hq Hin).
Defined.

(** ** The amplitude sweep of the exercise *)

Lemma omap_some_map {A B : Type} (f : A -> option B) (g : A -> B) (l : list A) :
  (forall v, In v l -> f v = Some (g v)) -> omap f l = Some (map g l).
Proof.
  induction l as [|y tl IH]; simpl; intros Hf; [reflexivity|].
  rewrite (Hf y) by now left.
  rewrite IH by (intros v Hv; apply Hf; now right). reflexivity.
Qed.

(** C10. [prep_exps(amps)] does not return the list of [2 * n_exps]
    schedules that its docstring promises: its body is the docstring, so
    the call returns [None] for the sweep of the notebook and for every
    other argument.  The cell that reads the data of the optimal
    amplitude does rely on the promised layout: it reads the programs
    [optimal_idx] and [n_exps + optimal_idx] of the result, so it returns
    data only from a result of more than [n_exps + optimal_idx]
    programs. *)
Theorem prep_exps_returns_None :
  prep_exps amps = PyNone /\
  (forall sweep : list Q, prep_exps sweep = PyNone) /\
  (forall progs, prep_exps amps <> PySchedules progs) /\
  (forall readout_cal_result optimal_idx ground excited,
      optimal_data readout_cal_result optimal_idx = Some (ground, excited) ->
      get_qubit_data readout_cal_result optimal_idx 0 = Some ground /\
      get_qubit_data readout_cal_result (n_exps + optimal_idx) 0 = Some excited /\
      (n_exps + optimal_idx < length readout_cal_result)%nat).
Proof.
  split; [reflexivity|]. split; [reflexivity|]. split; [discriminate|].
  intros result idx ground excited H. unfold optimal_data in H.
  destruct (get_qubit_data result idx 0) as [g|]; [|discriminate H].
  cbn [obind] in H.
  destruct (get_qubit_data result (n_exps + idx) 0) as [e|] eqn:He;
    [|discriminate H].
  cbn [obind] in H. injection H as <- <-.
  split; [reflexivity|]. split; [reflexivity|].
  unfold get_qubit_data, qiskit.get_memory, getitem in He.
  destruct (nth_error result (n_exps + idx)) as [data|] eqn:Hnth;
    [|discriminate He].
  apply nth_error_Some. congruence.
Qed.

(** ** Rounding *)

(** The nearest integer is at most one half away. *)
Lemma nearest_even_close (v : Q) :
  (Qabs (inject_Z (np.nearest_even v) - v) <= 1 # 2)%Q.
Proof.
  unfold np.nearest_even.
  pose proof (Qfloor_le v) as Hlo. pose proof (Qlt_floor v) as Hhi.
  set (f := Qfloor v) in *. clearbody f.
  assert (Hsucc : (inject_Z (f + 1) == inject_Z f + 1)%Q)
    by (rewrite inject_Z_plus; reflexivity).
  rewrite Hsucc in Hhi.
  apply Qabs_Qle_condition.
  destruct (v - inject_Z f ?= 1 # 2)%Q eqn:Hcmp.
  - apply Qeq_alt in Hcmp.
    destruct (Z.even f); [|rewrite Hsucc]; split; Lqa.lra.
  - apply Qlt_alt in Hcmp. split; Lqa.lra.
  - apply Qgt_alt in Hcmp. rewrite Hsucc. split; Lqa.lra.
Qed.

(** [np.rint] of a finite float is the float of the nearest integer. *)
Lemma rint_finite (x : np.float64) :
  np.is_finite x = true ->
  exists n : Z,
    (Qabs (inject_Z n - np.to_Q x) <= 1 # 2)%Q /\
    (np.rint x = np.of_Z n \/ n = 0%Z /\ np.rint x = S754_zero true).
Proof.
  destruct x as [s|s| |s mx ex]; try discriminate; intros _.
  - exists 0%Z. split; [apply Qabs_Qle_condition; split; discriminate|].
    destruct s; [right; now split | left; reflexivity].
  - exists (np.nearest_even (np.to_Q (S754_finite s mx ex))).
    split; [apply nearest_even_close|].
    unfold np.rint.
    destruct (np.nearest_even (np.to_Q (S754_finite s mx ex))) as [|n|n].
    + destruct s; [right; now split | left; reflexivity].
    + now left.
    + now left.
Qed.

Lemma round_rounded_to (decimals : nat) (v : np.float64) :
  rounded_to decimals v (np.round v decimals).
Proof.
  unfold rounded_to, np.round. intros Hfinite.
  destruct (rint_finite _ Hfinite) as (n & Hclose & [Hrint | [Hzero Hrint]]).
  - exists n. split; [exact Hclose|]. left. now rewrite Hrint.
  - exists n. split; [exact Hclose|]. right. split; [exact Hzero|].
    now rewrite Hrint.
Qed.

(** Near a tie the rounding of the product decides: the double nearest to
    0.000025 lies above 0.000025, its product by [10 ** 5] is 2.5 in
    binary64, and [np.round] gives the double nearest to 0.00002;
    likewise the double nearest to 0.000005 is rounded to 0. *)
Lemma round_near_a_tie :
  np.mul (S754_finite false 7378697629483821 (-68)) (np.of_Z 100000)
    = S754_finite false 5629499534213120 (-51) /\
  (np.to_Q (S754_finite false 5629499534213120 (-51)) == 5 # 2)%Q /\
  np.round (S754_finite false 7378697629483821 (-68)) 5
    = np.div (np.of_Z 2) (np.of_Z 100000) /\
  np.round (S754_finite false 5902958103587057 (-70)) 5 = S754_zero false.
Proof. repeat split; vm_compute; reflexivity. Qed.

(** ** The readout error of each qubit *)

Lemma readout_error_value (props : BackendProperties) (j : nat)
      (pj : list (string * (np.float64 * string))) (a0 b0 : np.float64)
      (da db : string) :
  qubit_property props j = Some pj ->
  dict_get pj "prob_meas0_prep1" = Some (a0, da) ->
  dict_get pj "prob_meas1_prep0" = Some (b0, db) ->
  readout_error props j
  = Some (mkReport j (np.round a0 5) (np.round b0 5)
                   (np.div (np.add (np.round a0 5) (np.round b0 5)) (np.of_Z 2))).
Proof.
  intros Hp Ha Hb. unfold readout_error.
  rewrite Hp. cbn [obind]. rewrite Ha. cbn [obind]. rewrite Hb. reflexivity.
Qed.

(** C7. For every qubit [j] of the loop ([range(5)]) the reported readout
    error is the arithmetic mean [(a + b) / 2], computed in binary64,
    where [a] and [b] are the backend properties [prob_meas0_prep1] and
    [prob_meas1_prep0] of the qubit, each first rounded to 5 decimal
    places by [np.round]: the property is multiplied by [10 ** 5], the
    nearest integer is taken and divided by [10 ** 5]. *)
Theorem readout_error_is_mean_of_rounded (props : BackendProperties)
        (a0 b0 : nat -> np.float64) :
  (forall j, (j < 5)%nat ->
     exists pj da db,
       qubit_property props j = Some pj /\
       dict_get pj "prob_meas0_prep1" = Some (a0 j, da) /\
       dict_get pj "prob_meas1_prep0" = Some (b0 j, db)) ->
  exists reports,
    readout_errors props = Some reports /\
    length reports = 5%nat /\
    forall j, (j < 5)%nat ->
      exists report,
        getitem reports j = Some report /\
        report_qubit report = j /\
        report_a report = np.round (a0 j) 5 /\
        report_b report = np.round (b0 j) 5 /\
        rounded_to 5 (a0 j) (report_a report) /\
        rounded_to 5 (b0 j) (report_b report) /\
        report_error report
        = np.div (np.add (report_a report) (report_b report)) (np.of_Z 2).
Proof.
  intros Hprops.
  set (report_of := fun j =>
         mkReport j (np.round (a0 j) 5) (np.round (b0 j) 5)
                  (np.div (np.add (np.round (a0 j) 5) (np.round (b0 j) 5))
                          (np.of_Z 2))).
  assert (Hall : forall j, In j (seq 0 5) ->
                           readout_error props j = Some (report_of j)).
  { intros j Hj. apply in_seq in Hj.
    destruct (Hprops j) as (pj & da & db & Hp & Ha & Hb); [lia|].
    exact (readout_error_value props j pj (a0 j) (b0 j) da db Hp Ha Hb). }
  exists (map report_of (seq 0 5)). split.
  { unfold readout_errors. now apply omap_some_map. }
  split; [reflexivity|].
  intros j Hj. exists (report_of j). split.
  { unfold getitem. rewrite nth_error_map.
    rewrite (nth_error_nth' _ 0%nat) by (rewrite length_seq; exact Hj).
    rewrite seq_nth by exact Hj. reflexivity. }
  unfold report_of. cbn [report_qubit report_a report_b report_error].
  repeat (split; [reflexivity|]).
  split; [apply round_rounded_to|]. split; [apply round_rounded_to | reflexivity].
Qed.

Lemma readout_error_is_mean_of_rounded_witness :
  let qubit (a0 b0 : np.float64) : list (string * (np.float64 * string)) :=
    [("prob_meas0_prep1", (a0, "2020-10-12"));
     ("prob_meas1_prep0", (b0, "2020-10-12"))]%string in
  (* 0.0533, 0.041, 0.0312345, 0.06, 0.000035 *)
  let a0 j :=
    nth j [S754_finite false 7681339524443118 (-57);
           S754_finite false 5908722711110091 (-57);
           S754_finite false 9002731683910640 (-58);
           S754_finite false 8646911284551352 (-57);
           S754_finite false 5165088340638674 (-67)] (S754_zero false) in
  (* 0.018666667, 0.01, 0.000025, 0.02, 0.000015 *)
  let b0 j :=
    nth j [S754_finite false 5380300450908745 (-58);
           S754_finite false 5764607523034235 (-59);
           S754_finite false 7378697629483821 (-68);
           S754_finite false 5764607523034235 (-58);
           S754_finite false 8854437155380585 (-69)] (S754_zero false) in
  let props : BackendProperties := map (fun j => qubit (a0 j) (b0 j)) (seq 0 5) in
  (forall j, (j < 5)%nat ->
     exists pj da db,
       qubit_property props j = Some pj /\
       dict_get pj "prob_meas0_prep1" = Some (a0 j, da) /\
       dict_get pj "prob_meas1_prep0" = Some (b0 j, db)) /\
  exists reports,
    readout_errors props = Some reports /\ length reports = 5%nat.
Proof.
  cbv zeta.
  match goal with |- ?H /\ _ => assert (Hprops : H) end.
  { intros j Hj.
    do 5 (destruct j as [|j];
          [eexists; eexists; eexists; repeat split; reflexivity|]).
    lia. }
  split; [exact Hprops|].
  destruct (readout_error_is_mean_of_rounded _ _ _ Hprops)
    as (reports & Hreports & Hlen & _).
  exists reports. split; [exact Hreports | exact Hlen].
Defined.

(** ** The T1 experiment design *)

Lemma count_iden_delay (qubit : nat) (l : list nat) :
  length (filter (circuit.is_iden_on qubit)
            (flat_map (fun _ => [circuit.barrier [qubit]; circuit.iden qubit]) l))
  = length l.
Proof.
  induction l as [|k l IH]; simpl; [reflexivity|].
  rewrite Nat.eqb_refl. simpl. now rewrite IH.
Qed.

Lemma count_pad_id_gates (qubit num_of_id_gates : nat) :
  length (filter (circuit.is_iden_on qubit) (pad_id_gates qubit num_of_id_gates))
  = num_of_id_gates.
Proof.
  unfold pad_id_gates.
  rewrite filter_app, length_app, count_iden_delay, length_seq. simpl. lia.
Qed.

Lemma t1_circuits_length (num_of_gates : list Z) (gate_time : Q) (qubits : list nat) :
  length (fst (t1_circuits num_of_gates gate_time qubits)) = length num_of_gates /\
  length (snd (t1_circuits num_of_gates gate_time qubits)) = length num_of_gates.
Proof. unfold t1_circuits. simpl. now rewrite !length_map. Qed.

Lemma t1_circuits_delay (num_of_gates : list Z) (gate_time : Q) (qubits : list nat)
      (i : nat) (n : Z) :
  getitem num_of_gates i = Some n ->
  getitem (snd (t1_circuits num_of_gates gate_time qubits)) i
  = Some (gate_time * inject_Z n)%Q.
Proof.
  intros Hi. unfold t1_circuits, getitem in *. simpl snd.
  now rewrite nth_error_map, Hi.
Qed.

Lemma t1_circuits_circuit (num_of_gates : list Z) (gate_time : Q) (qubit : nat)
      (i : nat) (n : Z) :
  getitem num_of_gates i = Some n ->
  exists circ,
    getitem (fst (t1_circuits num_of_gates gate_time [qubit])) i = Some circ /\
    circuit.count_iden qubit circ = Z.to_nat n.
Proof.
  intros Hi. unfold t1_circuits, getitem in *. simpl fst.
  rewrite nth_error_map, Hi. simpl option_map.
  eexists. split; [reflexivity|].
  unfold circuit.count_iden. simpl circuit.data.
  simpl flat_map. rewrite app_nil_r.
  simpl filter. rewrite !filter_app, !length_app, count_pad_id_gates.
  simpl. lia.
Qed.

Lemma num_of_gates_nonneg : Forall (fun n => (0 <= n)%Z) T1.num_of_gates.
Proof.
  apply Forall_forall. intros n Hn.
  assert (Hall : forallb (fun n => (0 <=? n)%Z) T1.num_of_gates = true)
    by (vm_compute; reflexivity).
  rewrite forallb_forall in Hall. apply Z.leb_le. now apply Hall.
Qed.

Lemma length_num_of_gates : length T1.num_of_gates = 50%nat.
Proof. unfold T1.num_of_gates. now rewrite length_map, length_linspace. Qed.

(** C6. The single call [t1_circuits(num_of_gates, gate_time, qubits)]
    returns the circuits and the delays, one of each per entry of
    [num_of_gates], and the delay of index [i] is
    [num_of_gates[i] * gate_time].  In the notebook this gives 50
    circuits whose delays are the numbers of identity gates they apply
    times [gate_time]; the first circuit has 10 identity gates and, at
    0.1 microseconds a gate, a delay of 1 microsecond. *)
Theorem t1_xdata_is_gates_times_gate_time :
  (forall (num_of_gates : list Z) (gate_time : Q) (qubits : list nat),
      length (fst (t1_circuits num_of_gates gate_time qubits))
        = length num_of_gates /\
      length (snd (t1_circuits num_of_gates gate_time qubits))
        = length num_of_gates /\
      forall i n delay,
        getitem num_of_gates i = Some n ->
        getitem (snd (t1_circuits num_of_gates gate_time qubits)) i = Some delay ->
        (delay == inject_Z n * gate_time)%Q) /\
  length t1_circs = 50%nat /\
  length t1_xdata = 50%nat /\
  (forall i, (i < 50)%nat ->
     exists n delay circ,
       getitem T1.num_of_gates i = Some n /\
       getitem t1_xdata i = Some delay /\
       getitem t1_circs i = Some circ /\
       (delay == inject_Z n * T1.gate_time)%Q /\
       Z.of_nat (circuit.count_iden 0 circ) = n) /\
  getitem T1.num_of_gates 0 = Some 10%Z /\
  (T1.gate_time == 1 # 10)%Q /\
  exists delay, getitem t1_xdata 0 = Some delay /\ (delay == 1)%Q.
Proof.
  split.
  { intros num_of_gates gate_time qubits.
    destruct (t1_circuits_length num_of_gates gate_time qubits) as [Hc Hx].
    split; [exact Hc|]. split; [exact Hx|].
    intros i n delay Hi Hd.
    rewrite (t1_circuits_delay num_of_gates gate_time qubits i n Hi) in Hd.
    injection Hd as <-. apply Qmult_comm. }
  split.
  { unfold t1_circs. rewrite (proj1 (t1_circuits_length _ _ _)).
    apply length_num_of_gates. }
  split.
  { unfold t1_xdata. rewrite (proj2 (t1_circuits_length _ _ _)).
    apply length_num_of_gates. }
  split.
  { intros i Hi.
    destruct (nth_error T1.num_of_gates i) as [n|] eqn:Hn;
      [|apply nth_error_None in Hn; rewrite length_num_of_gates in Hn; lia].
    destruct (t1_circuits_circuit T1.num_of_gates T1.gate_time 0 i n Hn)
      as (circ & Hcirc & Hcount).
    exists n, (T1.gate_time * inject_Z n)%Q, circ.
    split; [exact Hn|].
    split; [exact (t1_circuits_delay T1.num_of_gates T1.gate_time T1.qubits i n Hn)|].
    split; [exact Hcirc|]. split; [apply Qmult_comm|].
    rewrite Hcount. apply Z2Nat.id.
    pose proof num_of_gates_nonneg as Hnn. rewrite Forall_forall in Hnn.
    apply Hnn. now apply nth_error_In with i. }
  split; [reflexivity|]. split; [reflexivity|].
  exists (T1.gate_time * inject_Z 10)%Q. split; [reflexivity|]. reflexivity.
Qed.

(** ** The calibration circuits of three qubits *)

(** C5. For the three qubits of the notebook [complete_meas_cal] builds
    one calibration circuit per basis state: 2^3 = 8 circuits and 8
    state labels, each circuit preparing the basis state of its label,
    the first |000> and the last |111>; and executed without noise, the
    calibration matrix of the fitter is the 8x8 identity matrix. *)
Theorem complete_meas_cal_three_qubits :
  (2 ^ length qubit_list = 8)%nat /\
  length meas_calibs = 8%nat /\
  length state_labels = 8%nat /\
  (forall i, (i < 8)%nat ->
     exists circ label prepared,
       getitem meas_calibs i = Some circ /\
       getitem state_labels i = Some label /\
       label = bitstring 3 i /\
       prepared_state circ = Some prepared /\
       counts_key prepared = label) /\
  (exists first,
      getitem_int meas_calibs 0 = Some first /\
      getitem state_labels 0 = Some "000"%string /\
      filter circuit.is_x (circuit.data first) = [] /\
      prepared_state first = Some [false; false; false]) /\
  (exists last,
      getitem_int meas_calibs (-1) = Some last /\
      getitem_int state_labels (-1) = Some "111"%string /\
      filter circuit.is_x (circuit.data last)
        = [circuit.x 0; circuit.x 1; circuit.x 2] /\
      prepared_state last = Some [true; true; true]) /\
  exists results M,
    cal_results = Some results /\
    cal_matrix results state_labels = Some M /\
    matrix_eq M (identity_matrix 8).
Proof.
  split; [reflexivity|]. split; [reflexivity|]. split; [reflexivity|].
  split.
  { intros i Hi.
    do 8 (destruct i as [|i];
          [eexists; eexists; eexists;
           split; [reflexivity|]; split; [reflexivity|]; split; [reflexivity|];
           split; reflexivity|]).
    lia. }
  split.
  { eexists. split; [reflexivity|]. split; [reflexivity|]. split; reflexivity. }
  split.
  { eexists. split; [reflexivity|]. split; [reflexivity|]. split; reflexivity. }
  destruct cal_results as [results|] eqn:Hres; [|discriminate Hres].
  exists results.
  destruct (cal_matrix results state_labels) as [M|] eqn:HM.
  - exists M. split; [reflexivity|]. split; [reflexivity|].
    vm_compute in Hres. injection Hres as <-.
    vm_compute in HM. injection HM as <-.
    unfold matrix_eq, identity_matrix. simpl.
    repeat constructor.
  - vm_compute in Hres. injection Hres as <-. vm_compute in HM. discriminate HM.
Qed.

(** ** Counts and memory *)

Section JobResults.

Variable Experiment : Type.
Variable counts_of : Experiment -> list (string * nat).
Variable iq : Experiment -> nat -> nat -> complex.
Variable shots slots : nat.

Let execute := qiskit.execute counts_of iq shots slots.






End JobResults.






(** * Further properties of the notebooks *)

(** ** [np.linspace] *)

(** Sample [i] of [np.linspace(start, stop, num)] is
    [start + i * (stop - start) / (num - 1)]; the last one is [stop]. *)
Lemma linspace_nth (start stop : Q) (num i : nat) :
  (2 <= num)%nat -> (i < num)%nat ->
  (nth i (np.linspace start stop num) 0
   == start + inject_Z (Z.of_nat i) * ((stop - start) / inject_Z (Z.of_nat (num - 1))))%Q.
Proof.
  intros Hnum Hi. destruct num as [|[|n]]; [lia | lia |].
  unfold np.linspace. replace (S (S n) - 1)%nat with (S n) by lia.
  set (step := ((stop - start) / inject_Z (Z.of_nat (S n)))%Q).
  destruct (Nat.eq_dec i (S n)) as [->|Hne].
  - rewrite app_nth2 by (rewrite length_map, length_seq; lia).
    rewrite length_map, length_seq, Nat.sub_diag. simpl nth.
    unfold step. field.
    change 0%Q with (inject_Z 0). rewrite inject_Z_injective. lia.
  - set (sample := fun k : nat => (inject_Z (Z.of_nat k) * step + start)%Q).
    rewrite app_nth1 by (rewrite length_map, length_seq; lia).
    rewrite (nth_indep _ 0%Q (sample 0%nat))
      by (rewrite length_map, length_seq; lia).
    rewrite (map_nth sample), seq_nth by lia. unfold sample. simpl plus. ring.
Qed.

(** The sweep of the readout calibration: ten amplitudes from 0 to 0.15,
    strictly increasing. *)
Lemma amps_values :
  Forall2 Qeq amps
          [0; 1 # 60; 1 # 30; 1 # 20; 1 # 15; 1 # 12; 1 # 10; 7 # 60; 2 # 15; 3 # 20].
Proof. unfold amps, max_amp, n_exps. simpl. repeat constructor. Qed.

Lemma amps_increasing (i j : nat) :
  (i < j)%nat -> (j < n_exps)%nat -> (nth i amps 0 < nth j amps 0)%Q.
Proof.
  intros Hij Hj. unfold n_exps in Hj.
  rewrite (linspace_nth 0 max_amp n_exps i) by (unfold n_exps; lia).
  rewrite (linspace_nth 0 max_amp n_exps j) by (unfold n_exps; lia).
  unfold max_amp, n_exps. simpl Nat.sub.
  assert (Hlt : (inject_Z (Z.of_nat i) < inject_Z (Z.of_nat j))%Q)
    by (rewrite <- Zlt_Qlt; lia).
  assert (Hstep : (0 < ((15 # 100) - 0) / inject_Z (Z.of_nat 9))%Q) by reflexivity.
  set (step := (((15 # 100) - 0) / inject_Z (Z.of_nat 9))%Q) in *.
  apply Qplus_lt_r. apply Qmult_lt_compat_r; assumption.
Qed.

(** ** [np.argmax] returns the first maximum *)

Lemma argmax_from_first (l pre : list R) (best : nat) (vbest : R) :
  (best < length pre)%nat ->
  nth best pre 0%R = vbest ->
  (forall k, (k < best)%nat -> (nth k pre 0 < vbest)%R) ->
  (forall k, (k < length pre)%nat -> (nth k pre 0 <= vbest)%R) ->
  let r := np.argmax_from Rgtb best vbest (length pre) l in
  forall k, (k < r)%nat -> (nth k (pre ++ l) 0 < nth r (pre ++ l) 0)%R.
Proof.
  revert pre best vbest.
  induction l as [|y tl IH]; intros pre best vbest Hbest Hval Hfirst Hmax; simpl.
  - rewrite app_nil_r. intros k Hk. rewrite Hval. now apply Hfirst.
  - assert (Hlen : length (pre ++ [y]) = S (length pre))
      by (rewrite length_app; simpl; lia).
    destruct (Rgtb y vbest) eqn:Hgt.
    + apply Rgtb_true_lt in Hgt.
      pose proof (IH (pre ++ [y]) (length pre) y) as Hstep.
      rewrite Hlen, <- app_assoc in Hstep. apply Hstep.
      * lia.
      * rewrite app_nth2, Nat.sub_diag by lia. reflexivity.
      * intros k Hk. rewrite app_nth1 by lia.
        specialize (Hmax k Hk). lra.
      * intros k Hk. destruct (Nat.eq_dec k (length pre)) as [->|Hne].
        -- rewrite app_nth2, Nat.sub_diag by lia. simpl. lra.
        -- rewrite app_nth1 by lia. specialize (Hmax k ltac:(lia)). lra.
    + apply Rgtb_false in Hgt.
      pose proof (IH (pre ++ [y]) best vbest) as Hstep.
      rewrite Hlen, <- app_assoc in Hstep. apply Hstep.
      * lia.
      * rewrite app_nth1 by lia. exact Hval.
      * intros k Hk. rewrite app_nth1 by lia. now apply Hfirst.
      * intros k Hk. destruct (Nat.eq_dec k (length pre)) as [->|Hne].
        -- rewrite app_nth2, Nat.sub_diag by lia. simpl. exact Hgt.
        -- rewrite app_nth1 by lia. apply Hmax. lia.
Qed.

Lemma argmax_R_first (l : list R) (r : nat) :
  np.argmax Rgtb l = Some r ->
  forall k, (k < r)%nat -> (nth k l 0 < nth r l 0)%R.
Proof.
  destruct l as [|y tl]; [discriminate|]. simpl. intros H. injection H as <-.
  apply (argmax_from_first tl [y] 0 y); simpl.
  - lia.
  - reflexivity.
  - intros k Hk. lia.
  - intros k Hk. assert (k = 0)%nat as -> by lia. lra.
Qed.

Lemma optimal_returns (centroid_distances : list R) :
  length centroid_distances = n_exps ->
  exists optimal_idx optimal_amp,
    optimal centroid_distances = Some (optimal_idx, optimal_amp).
Proof.
  intros Hlen.
  destruct (argmax_R centroid_distances) as (r & Harg & Hr & _).
  { intros ->. discriminate Hlen. }
  rewrite Hlen, <- length_amps in Hr. apply nth_error_Some in Hr.
  destruct (nth_error amps r) as [amp|] eqn:Hamp; [|congruence].
  exists r, amp. unfold optimal, getitem. rewrite Harg. cbn [obind].
  now rewrite Hamp.
Qed.

(** X1. When several amplitudes reach the largest separation, the
    calibrated amplitude is the smallest of them: [np.argmax] returns
    the first maximum and the sweep increases. *)
Theorem optimal_amp_is_smallest_maximizer (centroid_distances : list R)
        (optimal_idx : nat) (optimal_amp : Q) :
  optimal centroid_distances = Some (optimal_idx, optimal_amp) ->
  (forall i, (i < optimal_idx)%nat ->
             (nth i centroid_distances 0 < nth optimal_idx centroid_distances 0)%R) /\
  (forall i, (i < n_exps)%nat ->
             nth i centroid_distances 0%R = nth optimal_idx centroid_distances 0%R ->
             (optimal_amp <= nth i amps 0)%Q).
Proof.
  intros Hopt. unfold optimal in Hopt.
  destruct (np.argmax Rgtb centroid_distances) as [r|] eqn:Harg; [|discriminate].
  cbn [obind] in Hopt.
  destruct (getitem amps r) as [amp|] eqn:Hamp; [|discriminate].
  cbn [obind] in Hopt. injection Hopt as <- <-.
  pose proof (argmax_R_first centroid_distances r Harg) as Hfirst.
  split; [exact Hfirst|].
  intros i Hi Heq.
  assert (Hr : (r < n_exps)%nat).
  { rewrite <- length_amps. apply nth_error_Some. unfold getitem in Hamp. congruence. }
  assert (Hnth : nth r amps 0%Q = amp).
  { unfold getitem in Hamp. now apply nth_error_nth. }
  rewrite <- Hnth.
  destruct (Nat.lt_ge_cases i r) as [Hlt|Hge].
  - specialize (Hfirst i Hlt). lra.
  - destruct (Nat.eq_dec i r) as [->|Hne]; [apply Qle_refl|].
    apply Qlt_le_weak. apply amps_increasing; lia.
Qed.

Lemma optimal_amp_is_smallest_maximizer_witness :
  exists optimal_idx optimal_amp,
    optimal [0; 1; 2; 5; 9; 7; 9; 3; 2; 1]%R = Some (optimal_idx, optimal_amp) /\
    forall i, (i < optimal_idx)%nat ->
              (nth i [0; 1; 2; 5; 9; 7; 9; 3; 2; 1] 0
               < nth optimal_idx [0; 1; 2; 5; 9; 7; 9; 3; 2; 1] 0)%R.
Proof.
  destruct (optimal_returns [0; 1; 2; 5; 9; 7; 9; 3; 2; 1]%R eq_refl)
    as (idx & amp & Hopt).
  exists idx, amp. split; [exact Hopt|].
  exact (proj1 (optimal_amp_is_smallest_maximizer _ idx amp Hopt)).
Defined.

(** ** The numbers of identity gates of the T1 design *)

(** X2. [num_of_gates] holds 50 numbers from 10 to 300, each 5 or 6 above
    the one before: the 50 of [np.linspace(10, 300, 50)] is the number of
    samples, not the step.  The T2 designs use 25 numbers from 5 to 150. *)
Theorem num_of_gates_values :
  length T1.num_of_gates = 50%nat /\
  nth 0 T1.num_of_gates 0%Z = 10%Z /\
  nth 49 T1.num_of_gates 0%Z = 300%Z /\
  length T2.num_of_gates = 25%nat /\
  nth 0 T2.num_of_gates 0%Z = 5%Z /\
  nth 24 T2.num_of_gates 0%Z = 150%Z /\
  forall i, (i < 49)%nat ->
    let step := (nth (S i) T1.num_of_gates 0 - nth i T1.num_of_gates 0)%Z in
    step = 5%Z \/ step = 6%Z.
Proof.
  split; [apply length_num_of_gates|]. split; [reflexivity|]. split; [reflexivity|].
  split; [reflexivity|]. split; [reflexivity|]. split; [reflexivity|].
  intros i Hi step.
  assert (Hall : forallb (fun k =>
                            let s := (nth (S k) T1.num_of_gates 0
                                      - nth k T1.num_of_gates 0)%Z in
                            (s =? 5)%Z || (s =? 6)%Z)
                         (seq 0 49) = true)
    by (vm_compute; reflexivity).
  rewrite forallb_forall in Hall.
  specialize (Hall i ltac:(apply in_seq; lia)). cbv zeta in Hall.
  apply orb_true_iff in Hall. fold step in Hall.
  destruct Hall as [H5|H6]; [left; now apply Z.eqb_eq | right; now apply Z.eqb_eq].
Qed.

(** ** The initial guesses of the fitters *)

(** X3. Every fitter of the notebook is given an initial guess that
    respects the bounds given with it. *)
Theorem fit_p0_within_bounds :
  within_bounds Qle T1.fit_p0 T1.fit_bounds /\
  within_bounds Qle T2.fit_p0 T2.fit_bounds /\
  forall osc_freq : R,
    (0 <= osc_freq)%R ->
    within_bounds Rle (T2.star_fit_p0 osc_freq) (T2.star_fit_bounds osc_freq).
Proof.
  split; [|split].
  - unfold within_bounds, T1.fit_p0, T1.fit_bounds, T1.t1_true. simpl.
    split; repeat constructor; discriminate.
  - unfold within_bounds, T2.fit_p0, T2.fit_bounds, T2.t2_true. simpl.
    split; repeat constructor; discriminate.
  - intros osc_freq Hosc.
    pose proof PI_RGT_0 as Hpi.
    assert (H25 : Q2R T2.t2_true = 25%R).
    { unfold T2.t2_true, Q2R. simpl. lra. }
    unfold within_bounds, T2.star_fit_p0, T2.star_fit_bounds. simpl.
    rewrite H25. split; repeat (constructor; [lra|]); constructor.
Qed.

(** ** The notebook as it stands *)

(** X4. Until the first exercise is done ([x180 = None] for every qubit) the
    excited-state program raises, and so does the first readout job; the
    ground program does not need the pulse. *)
Theorem excited_program_needs_x180 (backend : pulse.Backend)
        (chip_qubits : list Qubit) (amp : Q) :
  prepare_meas_cal_exp backend chip_qubits (x180_pulses_exercise chip_qubits)
                       amp true = None /\
  cal_progs backend chip_qubits (x180_pulses_exercise chip_qubits) = None /\
  exists ground,
    prepare_meas_cal_exp backend chip_qubits (x180_pulses_exercise chip_qubits)
                         meas_amp_guess false = Some ground.
Proof.
  assert (Hraise : forall amp',
            prepare_meas_cal_exp backend chip_qubits
              (x180_pulses_exercise chip_qubits) amp' true = None).
  { intros amp'. apply prepare_excited_raises. unfold x180_pulses_exercise.
    destruct chip_qubits as [|q rest]; [left | right]; reflexivity. }
  assert (Hguess : (Qabs meas_amp_guess <= 1)%Q)
    by (apply Qle_bool_iff; reflexivity).
  split; [apply Hraise|]. split.
  - unfold cal_progs. rewrite (prepare_ground _ _ _ _ Hguess), Hraise. reflexivity.
  - eexists. now apply prepare_ground.
Qed.

(** ** The data of a qubit *)

(** X5. [get_qubit_data(result, prog_idx, qubit)] returns one value per
    shot of the program: the IQ value of the qubit in that shot, scaled
    by [scale_factor]. *)
Theorem get_qubit_data_scales (result : qiskit.Result) (prog_idx qubit : nat)
        (memory : list (list complex)) :
  qiskit.get_memory result prog_idx = Some memory ->
  (forall shot, In shot memory -> (qubit < length shot)%nat) ->
  exists data,
    get_qubit_data result prog_idx qubit = Some data /\
    length data = length memory /\
    forall k, (k < length memory)%nat ->
      nth k data C0 = Cscale (/ 10 ^ 7) (nth qubit (nth k memory []) C0).
Proof.
  intros Hmem Hshots.
  set (column_of := fun shot : list complex => nth qubit shot C0).
  assert (Hcol : omap (fun shot => getitem shot qubit) memory
                 = Some (map column_of memory)).
  { apply omap_some_map. intros shot Hin. unfold getitem, column_of.
    apply nth_error_nth'. now apply Hshots. }
  exists (map (Cscale scale_factor) (map column_of memory)). split.
  { unfold get_qubit_data. rewrite Hmem. cbn [obind]. rewrite Hcol. reflexivity. }
  split; [now rewrite !length_map|].
  intros k Hk.
  rewrite (nth_indep _ C0 (Cscale scale_factor (column_of [])))
    by (rewrite !length_map; exact Hk).
  rewrite (map_nth (Cscale scale_factor)), (map_nth column_of). reflexivity.
Qed.

Lemma get_qubit_data_scales_witness :
  let memory := [[mkC 1 2; mkC 0 0]; [mkC 3 4; mkC 0 0]] in
  let result := [qiskit.Memory memory] in
  qiskit.get_memory result 0 = Some memory /\
  (forall shot, In shot memory -> (0 < length shot)%nat) /\
  exists data,
    get_qubit_data result 0 0 = Some data /\ length data = 2%nat.
Proof.
  cbv zeta.
  assert (Hshots : forall shot,
            In shot [[mkC 1 2; mkC 0 0]; [mkC 3 4; mkC 0 0]] ->
            (0 < length shot)%nat).
  { intros shot [<-|[<-|[]]]; simpl; lia. }
  split; [reflexivity|]. split; [exact Hshots|].
  destruct (get_qubit_data_scales
              [qiskit.Memory [[mkC 1 2; mkC 0 0]; [mkC 3 4; mkC 0 0]]] 0 0
              [[mkC 1 2; mkC 0 0]; [mkC 3 4; mkC 0 0]] eq_refl Hshots)
    as (data & Hdata & Hlen & _).
  exists data. split; [exact Hdata | exact Hlen].
Defined.

(** ** Left alignment never overlaps two instructions *)

Lemma push_left_append_no_overlap (block : list pulse.Instruction) :
  Forall (fun i => (0 <= pulse.inst_duration i)%Z) block ->
  forall tl : pulse.Timeline,
    ForallOrdPairs no_overlap (pulse.push_left_append tl block).
Proof.
  intros Hdur. induction Hdur as [|i0 rest Hi0 Hrest IH]; intros tl; simpl.
  - constructor.
  - constructor; [|apply IH].
    apply Forall_forall. intros [t i] Hin c Hc0 Hc. unfold stop_time. simpl in *.
    apply (push_left_append_after
             (fun c' => In c' (pulse.inst_channels i0))
             (pulse.ch_stop_time tl (pulse.inst_channels i0)
              + pulse.inst_duration i0)%Z
             rest Hrest _) with (i := i) (c := c) (t := t) in Hin; auto.
    intros c' Hc'. unfold pulse.occupy.
    apply occupies_In in Hc'. rewrite Hc'. lia.
Qed.

(** What [prepare_meas_cal_exp] returns when it returns: the aligned
    block of the optional excitation, the barrier and the measurement. *)
(** X6. Whatever schedule [prepare_meas_cal_exp] builds, no two of its
    instructions overlap on a channel they share: the earlier one stops
    before the later one starts (the x180 pulse, if any, having a
    duration that is not negative). *)
Theorem prepare_meas_cal_exp_no_overlap (backend : pulse.Backend)
        (chip_qubits : list Qubit) (x180_pulses : list (option pulse.Pulse))
        (amp : Q) (prep_excited : bool) (sched : pulse.Schedule) :
  (forall x180, getitem x180_pulses 0 = Some (Some x180) ->
                (0 <= pulse.pulse_duration x180)%Z) ->
  prepare_meas_cal_exp backend chip_qubits x180_pulses amp prep_excited
    = Some sched ->
  ForallOrdPairs no_overlap sched.
Proof.
  intros Hx180 Hsched.
  apply prepare_some in Hsched.
  destruct Hsched as (_ & before & -> & Hbefore).
  apply push_left_append_no_overlap.
  apply Forall_app. split.
  - destruct Hbefore as [[_ ->]|[_ (x180 & Hx & ->)]]; [constructor|].
    constructor; [|constructor]. simpl. now apply Hx180.
  - apply Forall_app. split; [|apply meas_block_durations].
    unfold barrier_block.
    destruct (1 <? length (barrier_channels backend))%nat;
      [constructor; [simpl; lia | constructor] | constructor].
Qed.

Lemma prepare_meas_cal_exp_no_overlap_witness :
  let backend := pulse.mkBackend 5 (fun qubit => [qubit]) in
  let chip_qubits := map mkQubit (seq 0 5) in
  let x180 := pulse.mkDrag 160 (1 # 5) 40 (1 # 2) in
  (forall p, getitem [Some x180] 0 = Some (Some p) ->
             (0 <= pulse.pulse_duration p)%Z) /\
  exists sched,
    prepare_meas_cal_exp backend chip_qubits [Some x180] (1 # 100) true
      = Some sched /\
    ForallOrdPairs no_overlap sched.
Proof.
  cbv zeta.
  assert (Hx : forall p,
             getitem [Some (pulse.mkDrag 160 (1 # 5) 40 (1 # 2))] 0
               = Some (Some p) ->
             (0 <= pulse.pulse_duration p)%Z).
  { intros p Hp. injection Hp as <-. simpl. lia. }
  split; [exact Hx|].
  assert (Hamp : (Qabs (1 # 100) <= 1)%Q) by (apply Qle_bool_iff; reflexivity).
  pose proof (prepare_excited (pulse.mkBackend 5 (fun qubit => [qubit]))
                (map mkQubit (seq 0 5))
                [Some (pulse.mkDrag 160 (1 # 5) 40 (1 # 2))] (1 # 100)
                (pulse.mkDrag 160 (1 # 5) 40 (1 # 2)) Hamp eq_refl) as Hsched.
  eexists. split; [exact Hsched|].
  exact (prepare_meas_cal_exp_no_overlap _ _ _ _ _ _ Hx Hsched).
Defined.

(** X7. [prepare_meas_cal_exp] raises in two cases only: the amplitude
    has a norm above 1, or the excited program is asked for and
    [x180_pulses[0]] is missing or is [None]. *)
Theorem prepare_meas_cal_exp_raises_iff (backend : pulse.Backend)
        (chip_qubits : list Qubit) (x180_pulses : list (option pulse.Pulse))
        (amp : Q) :
  (prepare_meas_cal_exp backend chip_qubits x180_pulses amp false = None
   <-> (1 < Qabs amp)%Q) /\
  (prepare_meas_cal_exp backend chip_qubits x180_pulses amp true = None
   <-> (1 < Qabs amp)%Q \/ getitem x180_pulses 0 = None
       \/ getitem x180_pulses 0 = Some None).
Proof.
  split; split.
  - intros Hnone. destruct (Qlt_le_dec 1 (Qabs amp)) as [Hbig|Hamp]; [exact Hbig|].
    rewrite (prepare_ground backend chip_qubits x180_pulses amp Hamp) in Hnone.
    discriminate.
  - apply prepare_refused.
  - intros Hnone. destruct (Qlt_le_dec 1 (Qabs amp)) as [Hbig|Hamp]; [now left|].
    right. destruct (getitem x180_pulses 0) as [[x180|]|] eqn:Hx; auto.
    rewrite (prepare_excited backend chip_qubits x180_pulses amp x180 Hamp Hx)
      in Hnone. discriminate.
  - intros [Hbig|Hx]; [now apply prepare_refused | now apply prepare_excited_raises].
Qed.

(** ** Left alignment of instructions on distinct channels *)

Lemma ch_stop_time_nonneg (tl : pulse.Timeline) (channels : list pulse.Channel) :
  (0 <= pulse.ch_stop_time tl channels)%Z.
Proof.
  unfold pulse.ch_stop_time. induction channels as [|c rest IH]; simpl; lia.
Qed.

Lemma ch_stop_time_le (T : Z) (tl : pulse.Timeline) (channels : list pulse.Channel) :
  (0 <= T)%Z -> (forall c, In c channels -> (tl c <= T)%Z) ->
  (pulse.ch_stop_time tl channels <= T)%Z.
Proof.
  unfold pulse.ch_stop_time. intros HT.
  induction channels as [|c rest IH]; simpl; intros Hall; [exact HT|].
  pose proof (Hall c (or_introl eq_refl)).
  specialize (IH (fun c' Hc' => Hall c' (or_intror Hc'))). lia.
Qed.

(** The start times depend on the timeline only at the channels of the
    block. *)
Lemma push_left_append_ext (block : list pulse.Instruction)
      (tl tl' : pulse.Timeline) :
  (forall c, In c (block_channels block) -> tl c = tl' c) ->
  pulse.push_left_append tl block = pulse.push_left_append tl' block.
Proof.
  revert tl tl'. induction block as [|i rest IH]; intros tl tl' Heq;
    [reflexivity|].
  assert (Hstop : pulse.ch_stop_time tl (pulse.inst_channels i)
                  = pulse.ch_stop_time tl' (pulse.inst_channels i)).
  { unfold pulse.ch_stop_time. f_equal. apply map_ext_in.
    intros c Hc. apply Heq. unfold block_channels. simpl.
    apply in_or_app. now left. }
  simpl. rewrite Hstop. f_equal. apply IH.
  intros c Hc. unfold pulse.occupy.
  destruct (existsb (pulse.Channel_eqb c) (pulse.inst_channels i));
    [reflexivity|].
  apply Heq. unfold block_channels. simpl. apply in_or_app. now right.
Qed.

Lemma NoDup_app_disjoint {A : Type} (l1 l2 : list A) :
  NoDup (l1 ++ l2) -> forall v, In v l1 -> ~ In v l2.
Proof.
  induction l1 as [|y l1 IH]; simpl; intros Hnd v Hv; [contradiction|].
  inversion Hnd as [|? ? Hy Hrest]; subst.
  destruct Hv as [<-|Hv].
  - intros Hin. apply Hy. apply in_or_app. now right.
  - now apply IH.
Qed.

(** Instructions that share no channel do not wait for each other: each
    starts where the timeline stood before the block. *)
Lemma push_left_append_distinct (block : list pulse.Instruction)
      (tl : pulse.Timeline) :
  NoDup (block_channels block) ->
  pulse.push_left_append tl block
  = map (fun i => (pulse.ch_stop_time tl (pulse.inst_channels i), i)) block.
Proof.
  induction block as [|i rest IH]; intros Hnd; [reflexivity|].
  unfold block_channels in Hnd. simpl in Hnd.
  simpl. f_equal. rewrite <- IH by exact (NoDup_app_remove_l _ _ Hnd).
  apply push_left_append_ext. intros c Hc. unfold pulse.occupy.
  destruct (existsb (pulse.Channel_eqb c) (pulse.inst_channels i)) eqn:Hocc;
    [|reflexivity].
  apply occupies_In in Hocc. exfalso.
  exact (NoDup_app_disjoint _ _ Hnd c Hocc Hc).
Qed.

(** The channels of the measurement block. *)
Lemma meas_block_channels (backend : pulse.Backend) (chip_qubits : list Qubit)
      (amp : Q) :
  block_channels (meas_block backend chip_qubits amp)
  = map (fun q => m (index q)) chip_qubits
      ++ flat_map (fun qubit => [a qubit; mem_slot qubit])
                  (seq 0 (pulse.n_qubits backend)).
Proof.
  unfold block_channels, meas_block. rewrite flat_map_app. f_equal.
  - induction chip_qubits as [|q rest IH]; simpl; [reflexivity | now rewrite IH].
  - induction (seq 0 (pulse.n_qubits backend)) as [|q rest IH]; simpl;
      [reflexivity | now rewrite IH].
Qed.

Lemma acquire_channels_NoDup (l : list nat) :
  NoDup l -> NoDup (flat_map (fun qubit => [a qubit; mem_slot qubit]) l).
Proof.
  induction 1 as [|q rest Hq Hrest IH]; simpl; [constructor|].
  assert (Hnot : forall c, (c = a q \/ c = mem_slot q) ->
                           ~ In c (flat_map (fun qubit => [a qubit; mem_slot qubit])
                                            rest)).
  { intros c Hc Hin. apply in_flat_map in Hin. destruct Hin as (q' & Hq' & Hin).
    simpl in Hin.
    destruct Hc as [-> | ->], Hin as [Heq|[Heq|[]]];
      try discriminate Heq; injection Heq as ->; contradiction. }
  constructor.
  - simpl. intros [Heq|Hin]; [discriminate Heq|]. now apply (Hnot (a q)); auto.
  - constructor; [|exact IH]. now apply Hnot; auto.
Qed.

Lemma measure_channels_NoDup (l : list nat) : NoDup l -> NoDup (map m l).
Proof.
  induction 1 as [|q rest Hq Hrest IH]; simpl; constructor; [|exact IH].
  intros Hin. apply in_map_iff in Hin. destruct Hin as (q' & Heq & Hq').
  injection Heq as ->. contradiction.
Qed.

Lemma meas_block_distinct (backend : pulse.Backend) (chip_qubits : list Qubit)
      (amp : Q) :
  NoDup (map index chip_qubits) ->
  NoDup (block_channels (meas_block backend chip_qubits amp)).
Proof.
  intros Hnd. rewrite meas_block_channels. apply NoDup_app.
  - rewrite <- (map_map index m). now apply measure_channels_NoDup.
  - apply acquire_channels_NoDup, seq_NoDup.
  - intros c Hc Hin. apply in_map_iff in Hc. destruct Hc as (q & <- & _).
    apply in_flat_map in Hin. destruct Hin as (q' & _ & Hin). simpl in Hin.
    destruct Hin as [Heq|[Heq|[]]]; discriminate Heq.
Qed.

Lemma barrier_channels_no_memory (backend : pulse.Backend) (qubit : nat) :
  ~ In (mem_slot qubit) (barrier_channels backend).
Proof.
  unfold barrier_channels. intros Hin. apply nodup_In in Hin.
  apply in_flat_map in Hin. destruct Hin as (q & _ & Hin).
  unfold pulse.qubit_channels in Hin. apply in_app_or in Hin.
  destruct Hin as [Hin|Hin].
  - simpl in Hin. destruct Hin as [Heq|[Heq|[Heq|[]]]]; discriminate Heq.
  - apply in_map_iff in Hin. destruct Hin as (u & Heq & _). discriminate Heq.
Qed.

(** On a timeline where the measure and acquire channels are free from
    [T] on, and the memory slots from the start, the whole measurement
    block starts at [T]. *)
Lemma meas_block_starts (backend : pulse.Backend) (chip_qubits : list Qubit)
      (amp : Q) (tl : pulse.Timeline) (T : Z) :
  (0 <= T)%Z ->
  (forall q, In q chip_qubits -> tl (m (index q)) = T) ->
  (forall qubit, (qubit < pulse.n_qubits backend)%nat ->
                 tl (a qubit) = T /\ tl (mem_slot qubit) = 0%Z) ->
  NoDup (map index chip_qubits) ->
  pulse.push_left_append tl (meas_block backend chip_qubits amp)
  = map (fun i => (T, i)) (meas_block backend chip_qubits amp).
Proof.
  intros HT Hm Ha Hnd.
  rewrite push_left_append_distinct by now apply meas_block_distinct.
  apply map_ext_in. intros i Hi. f_equal.
  unfold meas_block in Hi. apply in_app_or in Hi. destruct Hi as [Hi|Hi];
    apply in_map_iff in Hi; destruct Hi as (q & <- & Hq);
    unfold pulse.ch_stop_time; simpl.
  - rewrite (Hm q Hq). lia.
  - apply in_seq in Hq. destruct (Ha q) as [-> ->]; lia.
Qed.

Lemma occupy_in (tl : pulse.Timeline) (channels : list pulse.Channel) (t : Z)
      (c : pulse.Channel) :
  In c channels -> pulse.occupy tl channels t c = t.
Proof.
  intros Hc. unfold pulse.occupy. apply occupies_In in Hc. now rewrite Hc.
Qed.

Lemma occupy_out (tl : pulse.Timeline) (channels : list pulse.Channel) (t : Z)
      (c : pulse.Channel) :
  ~ In c channels -> pulse.occupy tl channels t c = tl c.
Proof.
  intros Hc. unfold pulse.occupy.
  destruct (existsb (pulse.Channel_eqb c) channels) eqn:Hocc; [|reflexivity].
  apply occupies_In in Hocc. contradiction.
Qed.

(** X8. When the qubits of the chip are distinct qubits of the backend,
    the ground program is the barrier and the whole measurement block
    (every measurement pulse and every acquisition) at time 0, and the
    excited program is the x180 pulse at time 0 followed by the ground
    program delayed by the duration of the x180 pulse: measurement and
    acquisition start together, when the excitation stops. *)
Theorem excited_program_is_delayed_ground (backend : pulse.Backend)
        (chip_qubits : list Qubit) (x180_pulses : list (option pulse.Pulse))
        (amp : Q) (x180 : pulse.Pulse) :
  (Qabs amp <= 1)%Q ->
  getitem x180_pulses 0 = Some (Some x180) ->
  (0 < pulse.n_qubits backend)%nat ->
  (forall q, In q chip_qubits -> (index q < pulse.n_qubits backend)%nat) ->
  NoDup (map index chip_qubits) ->
  let ground :=
    (0%Z, pulse.RelativeBarrier (barrier_channels backend))
      :: map (fun i => (0%Z, i)) (meas_block backend chip_qubits amp) in
  prepare_meas_cal_exp backend chip_qubits x180_pulses amp false = Some ground /\
  prepare_meas_cal_exp backend chip_qubits x180_pulses amp true
  = Some ((0%Z, pulse.Play x180 (pulse.DriveChannel 0))
            :: shift (Z.max 0 (pulse.pulse_duration x180)) ground).
Proof.
  intros Hamp Hx Hn Hchip Hnd ground. subst ground.
  set (chs := barrier_channels backend).
  assert (Hin_m : forall q, In q chip_qubits -> In (m (index q)) chs).
  { intros q Hq. now apply (barrier_channels_In backend (index q)), Hchip. }
  assert (Hin_a : forall qubit, (qubit < pulse.n_qubits backend)%nat ->
                                In (a qubit) chs).
  { intros qubit Hq. now apply (barrier_channels_In backend qubit). }
  split.
  - rewrite (prepare_ground backend chip_qubits x180_pulses amp Hamp).
    rewrite (barrier_block_present backend Hn). fold chs.
    unfold pulse.align_left. simpl app. rewrite push_left_append_cons.
    set (tl0 := fun _ : pulse.Channel => 0%Z).
    assert (H0 : pulse.ch_stop_time tl0 chs = 0%Z).
    { pose proof (ch_stop_time_nonneg tl0 chs).
      pose proof (ch_stop_time_le 0 tl0 chs (Z.le_refl 0)
                    (fun c _ => Z.le_refl 0)). simpl in *. lia. }
    simpl pulse.inst_channels. simpl pulse.inst_duration. rewrite H0.
    do 2 f_equal. apply meas_block_starts; [lia | | | exact Hnd].
    + intros q Hq. now rewrite occupy_in by now apply Hin_m.
    + intros qubit Hq. split.
      * now rewrite occupy_in by now apply Hin_a.
      * rewrite occupy_out by apply barrier_channels_no_memory. reflexivity.
  - rewrite (prepare_excited backend chip_qubits x180_pulses amp x180 Hamp Hx).
    rewrite (barrier_block_present backend Hn). fold chs.
    unfold pulse.align_left, shift. simpl app. simpl map.
    rewrite !push_left_append_cons.
    set (tl0 := fun _ : pulse.Channel => 0%Z).
    simpl pulse.inst_channels. simpl pulse.inst_duration.
    change (pulse.ch_stop_time tl0 [d 0]) with 0%Z.
    set (tl1 := pulse.occupy tl0 [d 0] (0 + pulse.pulse_duration x180)%Z).
    set (T := Z.max 0 (pulse.pulse_duration x180)).
    assert (Hd0 : tl1 (d 0) = pulse.pulse_duration x180) by reflexivity.
    assert (HTb : pulse.ch_stop_time tl1 chs = T).
    { pose proof (ch_stop_time_nonneg tl1 chs).
      pose proof (ch_stop_time_ge tl1 chs (d 0)
                    (proj1 (barrier_channels_In backend 0 Hn))).
      assert (pulse.ch_stop_time tl1 chs <= T)%Z.
      { apply ch_stop_time_le; [unfold T; lia|].
        intros c _. unfold tl1, pulse.occupy, tl0, T.
        destruct (existsb (pulse.Channel_eqb c) [d 0]); lia. }
      unfold T in *. lia. }
    rewrite HTb, map_map. simpl. do 3 f_equal.
    apply meas_block_starts; [unfold T; lia | | | exact Hnd].
    + intros q Hq. rewrite occupy_in by now apply Hin_m. lia.
    + intros qubit Hq. split.
      * rewrite occupy_in by now apply Hin_a. lia.
      * rewrite occupy_out by apply barrier_channels_no_memory. reflexivity.
Qed.

Lemma excited_program_is_delayed_ground_witness :
  let backend := pulse.mkBackend 5 (fun qubit => [qubit]) in
  let chip_qubits := map mkQubit (seq 0 5) in
  let x180 := pulse.mkDrag 160 (1 # 5) 40 (1 # 2) in
  (Qabs (1 # 100) <= 1)%Q /\
  getitem [Some x180] 0 = Some (Some x180) /\
  (0 < pulse.n_qubits backend)%nat /\
  (forall q, In q chip_qubits -> (index q < pulse.n_qubits backend)%nat) /\
  NoDup (map index chip_qubits) /\
  exists ground,
    prepare_meas_cal_exp backend chip_qubits [Some x180] (1 # 100) false
      = Some ground /\
    prepare_meas_cal_exp backend chip_qubits [Some x180] (1 # 100) true
      = Some ((0%Z, pulse.Play x180 (pulse.DriveChannel 0)) :: shift 160 ground).
Proof.
  cbv zeta.
  assert (Hamp : (Qabs (1 # 100) <= 1)%Q) by (apply Qle_bool_iff; reflexivity).
  assert (Hn : (0 < 5)%nat) by lia.
  assert (Hchip : forall q, In q (map mkQubit (seq 0 5)) -> (index q < 5)%nat).
  { intros q Hq. apply in_map_iff in Hq. destruct Hq as (i & <- & Hi).
    apply in_seq in Hi. simpl. lia. }
  assert (Hnd : NoDup (map index (map mkQubit (seq 0 5)))).
  { simpl. repeat (constructor; [simpl; lia|]). constructor. }
  split; [exact Hamp|]. split; [reflexivity|]. split; [exact Hn|].
  split; [exact Hchip|]. split; [exact Hnd|].
  destruct (excited_program_is_delayed_ground
              (pulse.mkBackend 5 (fun qubit => [qubit]))
              (map mkQubit (seq 0 5))
              [Some (pulse.mkDrag 160 (1 # 5) 40 (1 # 2))] (1 # 100)
              (pulse.mkDrag 160 (1 # 5) 40 (1 # 2)) Hamp eq_refl Hn Hchip Hnd)
    as [Hg He].
  eexists. split; [exact Hg | exact He].
Defined.

(** ** When the data of a qubit cannot be read *)

(** What [get_memory] returns is an array: at least one shot, and the
    same number of values, at least one, in every shot. *)
Lemma is_array_shape (memory : list (list complex)) :
  qiskit.is_array memory = true ->
  exists shot rest n,
    memory = shot :: rest /\ (0 < n)%nat /\
    forall other, In other memory -> length other = n.
Proof.
  destruct memory as [|shot rest]; [discriminate|]. cbn [qiskit.is_array].
  intros H. apply andb_true_iff in H. destruct H as [Hn Hrest].
  exists shot, rest, (length shot). split; [reflexivity|]. split.
  - destruct (length shot); [discriminate Hn | lia].
  - intros other [<-|Hin]; [reflexivity|].
    rewrite forallb_forall in Hrest. now apply Nat.eqb_eq, Hrest.
Qed.

Lemma get_memory_is_array (result : qiskit.Result) (i : nat)
      (memory : list (list complex)) :
  qiskit.get_memory result i = Some memory -> qiskit.is_array memory = true.
Proof.
  unfold qiskit.get_memory.
  destruct (getitem result i) as [[counts|mem]|]; try discriminate.
  destruct (qiskit.is_array mem) eqn:Harr; [|discriminate].
  intros H. injection H as <-. exact Harr.
Qed.

(** X9. [get_qubit_data(result, prog_idx, qubit)] raises in two cases
    only: [result.get_memory(prog_idx)] raises, or the memory of the
    program, an array of [n] values per shot, has no column [qubit]:
    [n <= qubit]. *)
Theorem get_qubit_data_raises_iff (result : qiskit.Result) (prog_idx qubit : nat) :
  get_qubit_data result prog_idx qubit = None
  <-> qiskit.get_memory result prog_idx = None
      \/ exists memory n,
           qiskit.get_memory result prog_idx = Some memory /\
           (forall shot, In shot memory -> length shot = n) /\
           (n <= qubit)%nat.
Proof.
  unfold get_qubit_data.
  destruct (qiskit.get_memory result prog_idx) as [memory|] eqn:Hmem; cbn [obind];
    [|split; [now left | reflexivity]].
  destruct (is_array_shape memory (get_memory_is_array _ _ _ Hmem))
    as (first & rest & n & -> & Hn & Hlen).
  destruct (omap (fun shot => getitem shot qubit) (first :: rest))
    as [column|] eqn:Hcol; cbn [obind].
  - split; [discriminate|].
    intros [Hnone|(memory' & n' & Heq & Hlen' & Hle)]; [discriminate|].
    injection Heq as <-.
    destruct (omap_nth_error _ _ _ Hcol 0%nat first eq_refl) as (z & Hz & _).
    unfold getitem in Hz.
    assert (Hnone : nth_error first qubit = None).
    { apply nth_error_None. rewrite (Hlen' first) by now left. exact Hle. }
    congruence.
  - split; [|reflexivity]. intros _. right.
    apply omap_none in Hcol. destruct Hcol as (shot & Hin & Hshot).
    exists (first :: rest), n. split; [reflexivity|]. split; [exact Hlen|].
    apply nth_error_None in Hshot. now rewrite <- (Hlen shot Hin).
Qed.

(** ** The cell that picks the amplitude: edge cases *)

Lemma argmax_from_lt {A : Type} (gtb : A -> A -> bool) (l : list A)
      (best : nat) (vbest : A) (i : nat) :
  (best < i)%nat -> (np.argmax_from gtb best vbest i l < i + length l)%nat.
Proof.
  revert best vbest i. induction l as [|y tl IH]; intros best vbest i Hbest; simpl.
  - lia.
  - destruct (gtb y vbest).
    + specialize (IH i y (S i) ltac:(lia)). lia.
    + specialize (IH best vbest (S i) ltac:(lia)). lia.
Qed.

Lemma argmax_lt_length {A : Type} (gtb : A -> A -> bool) (l : list A) (r : nat) :
  np.argmax gtb l = Some r -> (r < length l)%nat.
Proof.
  destruct l as [|y tl]; [discriminate|]. simpl. intros H. injection H as <-.
  pose proof (argmax_from_lt gtb tl 0 y 1 ltac:(lia)). lia.
Qed.

(** X10. The cell raises on an empty array of separations, and on an
    array longer than the sweep whose first maximum lies beyond the last
    amplitude; it raises in no other case, so never on an array of 1 to
    [n_exps] separations. *)
Theorem optimal_raises_iff (centroid_distances : list R) :
  (optimal centroid_distances = None
   <-> centroid_distances = []
       \/ exists r, np.argmax Rgtb centroid_distances = Some r /\
                    (n_exps <= r)%nat) /\
  (centroid_distances <> [] ->
   (length centroid_distances <= n_exps)%nat ->
   exists optimal_idx optimal_amp,
     optimal centroid_distances = Some (optimal_idx, optimal_amp) /\
     (optimal_idx < length centroid_distances)%nat).
Proof.
  assert (Hiff : optimal centroid_distances = None
                 <-> centroid_distances = []
                     \/ exists r, np.argmax Rgtb centroid_distances = Some r /\
                                  (n_exps <= r)%nat).
  { unfold optimal.
    destruct (np.argmax Rgtb centroid_distances) as [r|] eqn:Harg; cbn [obind].
    - destruct (getitem amps r) as [amp|] eqn:Hamp; cbn [obind].
      + split; [discriminate|].
        intros [-> | (r' & Hr' & Hle)]; [discriminate|].
        injection Hr' as <-. unfold getitem in Hamp.
        assert (nth_error amps r = None)
          by (apply nth_error_None; rewrite length_amps; exact Hle).
        congruence.
      + split; [|reflexivity]. intros _. right. exists r. split; [reflexivity|].
        unfold getitem in Hamp. apply nth_error_None in Hamp.
        now rewrite length_amps in Hamp.
    - split; [|reflexivity]. intros _. left.
      destruct centroid_distances; [reflexivity | discriminate]. }
  split; [exact Hiff|].
  intros Hne Hlen.
  destruct (optimal centroid_distances) as [[idx amp]|] eqn:Hopt.
  - exists idx, amp. split; [reflexivity|].
    unfold optimal in Hopt.
    destruct (np.argmax Rgtb centroid_distances) as [r|] eqn:Harg;
      cbn [obind] in Hopt; [|discriminate].
    destruct (getitem amps r) as [amp'|]; cbn [obind] in Hopt; [|discriminate].
    injection Hopt as <- <-. exact (argmax_lt_length _ _ _ Harg).
  - exfalso. destruct (proj1 Hiff eq_refl) as [Hnil|(r & Hr & Hle)];
      [contradiction|].
    apply argmax_lt_length in Hr. lia.
Qed.

(** ** The value of the calibrated amplitude *)

(** X12. The amplitude the cell returns is [optimal_idx] steps of
    [max_amp / (n_exps - 1)] above 0, and lies between 0 and [max_amp]. *)
Theorem optimal_amp_value (centroid_distances : list R) (optimal_idx : nat)
        (optimal_amp : Q) :
  optimal centroid_distances = Some (optimal_idx, optimal_amp) ->
  (optimal_idx < n_exps)%nat /\
  (optimal_amp
   == inject_Z (Z.of_nat optimal_idx)
      * (max_amp / inject_Z (Z.of_nat (n_exps - 1))))%Q /\
  (0 <= optimal_amp <= max_amp)%Q.
Proof.
  intros Hopt. unfold optimal in Hopt.
  destruct (np.argmax Rgtb centroid_distances) as [r|]; cbn [obind] in Hopt;
    [|discriminate].
  destruct (getitem amps r) as [amp|] eqn:Hamp; cbn [obind] in Hopt;
    [|discriminate].
  injection Hopt as <- <-. unfold getitem in Hamp.
  assert (Hr : (r < n_exps)%nat).
  { rewrite <- length_amps. apply nth_error_Some. congruence. }
  assert (Hval : (amp == inject_Z (Z.of_nat r)
                         * (max_amp / inject_Z (Z.of_nat (n_exps - 1))))%Q).
  { rewrite <- (nth_error_nth _ _ 0%Q Hamp). unfold amps.
    rewrite (linspace_nth 0 max_amp n_exps r) by (unfold n_exps in *; lia).
    setoid_replace (max_amp - 0)%Q with max_amp by ring. ring. }
  split; [exact Hr|]. split; [exact Hval|].
  rewrite Hval. unfold n_exps in *. simpl Nat.sub.
  assert (H0 : (inject_Z 0 <= inject_Z (Z.of_nat r))%Q)
    by (rewrite <- Zle_Qle; lia).
  assert (H9 : (inject_Z (Z.of_nat r) <= inject_Z 9)%Q)
    by (rewrite <- Zle_Qle; lia).
  set (steps := inject_Z (Z.of_nat r)) in *.
  assert (Hstep : (max_amp / inject_Z (Z.of_nat 9) == 1 # 60)%Q) by reflexivity.
  rewrite Hstep.
  assert (Hmax : (max_amp == 9 * (1 # 60))%Q) by reflexivity.
  rewrite Hmax.
  change (inject_Z 0) with 0%Q in H0. change (inject_Z 9) with 9%Q in H9.
  split; Lqa.lra.
Qed.

Lemma optimal_amp_value_witness :
  exists optimal_idx optimal_amp,
    optimal [0; 1; 2; 5; 9; 7; 9; 3; 2; 1]%R = Some (optimal_idx, optimal_amp) /\
    (0 <= optimal_amp <= max_amp)%Q.
Proof.
  destruct (optimal_returns [0; 1; 2; 5; 9; 7; 9; 3; 2; 1]%R eq_refl)
    as (idx & amp & Hopt).
  exists idx, amp. split; [exact Hopt|].
  exact (proj2 (proj2 (optimal_amp_value _ idx amp Hopt))).
Defined.

(** ** binary64 arithmetic: products, sums and quotients are rounded to nearest

    The operations of [SpecFloat] on positive floats, related to the
    exact product, sum and quotient: the result is a multiple of a power
    of two at most half a unit away. *)

(** *** Powers of two *)

Lemma pow2_pos (e : Z) : (0 < pow2 e)%Q.
Proof. apply Qpower_0_lt. reflexivity. Qed.

Lemma pow2_add (a b : Z) : (pow2 (a + b) == pow2 a * pow2 b)%Q.
Proof. apply Qpower_plus. discriminate. Qed.

Lemma pow2_succ (e : Z) : (pow2 (e + 1) == 2 * pow2 e)%Q.
Proof. rewrite pow2_add. unfold pow2 at 2. rewrite Qpower_1_r. ring. Qed.

Lemma pow2_le (a b : Z) : (a <= b)%Z -> (pow2 a <= pow2 b)%Q.
Proof. intros H. apply Qpower_le_compat_l; [exact H | discriminate]. Qed.

Lemma pow2_lt (a b : Z) : (a < b)%Z -> (pow2 a < pow2 b)%Q.
Proof. intros H. apply Qpower_lt_compat_l; [exact H | reflexivity]. Qed.

Lemma pow2_lt_inv (a b : Z) : (pow2 a < pow2 b)%Q -> (a < b)%Z.
Proof. intros H. apply (Qpower_lt_compat_l_inv 2); [exact H | reflexivity]. Qed.

Lemma pow2_inject (k : Z) : (0 <= k)%Z -> (pow2 k == inject_Z (2 ^ k))%Q.
Proof. intros H. unfold pow2. now rewrite Zpower_Qpower. Qed.

(** *** The number of binary digits *)

Lemma digits2_pos_spec (p : positive) :
  (2 ^ (Zpos (digits2_pos p) - 1) <= Zpos p < 2 ^ Zpos (digits2_pos p))%Z.
Proof.
  induction p as [p IH|p IH|]; cbn [digits2_pos].
  - rewrite Pos2Z.inj_succ.
    replace (Z.succ (Zpos (digits2_pos p)) - 1)%Z
      with (Z.succ (Zpos (digits2_pos p) - 1)) by lia.
    rewrite !Z.pow_succ_r by lia. lia.
  - rewrite Pos2Z.inj_succ.
    replace (Z.succ (Zpos (digits2_pos p)) - 1)%Z
      with (Z.succ (Zpos (digits2_pos p) - 1)) by lia.
    rewrite !Z.pow_succ_r by lia. lia.
  - simpl. lia.
Qed.

Lemma Zdigits2_nonneg (m : Z) : (0 <= Zdigits2 m)%Z.
Proof. destruct m; simpl; lia. Qed.

Lemma Zdigits2_pos (m : Z) : (0 < m)%Z -> (1 <= Zdigits2 m)%Z.
Proof. destruct m as [|p|p]; simpl; lia. Qed.

Lemma Zdigits2_spec (m : Z) :
  (0 < m)%Z -> (2 ^ (Zdigits2 m - 1) <= m < 2 ^ Zdigits2 m)%Z.
Proof. destruct m as [|p|p]; try lia. intros _. apply digits2_pos_spec. Qed.

(** A positive number below [2 ^ d] has at most [d] digits. *)
Lemma Zdigits2_le (m d : Z) :
  (0 <= m < 2 ^ d)%Z -> (0 <= d)%Z -> (Zdigits2 m <= d)%Z.
Proof.
  intros [Hm Hd] Hd0. destruct (Z.eq_dec m 0) as [->|Hne]; [simpl; lia|].
  destruct (Zdigits2_spec m ltac:(lia)) as [Hlo _].
  assert (Hlt : (2 ^ (Zdigits2 m - 1) < 2 ^ d)%Z) by lia.
  apply Z.pow_lt_mono_r_iff in Hlt; lia.
Qed.

Lemma Zdigits2_ge (m d : Z) :
  (2 ^ d <= m)%Z -> (0 <= d)%Z -> (d + 1 <= Zdigits2 m)%Z.
Proof.
  intros Hd Hd0.
  assert (Hm : (0 < m)%Z).
  { pose proof (Z.pow_pos_nonneg 2 d ltac:(lia) Hd0). lia. }
  destruct (Zdigits2_spec m Hm) as [_ Hhi].
  assert (Hlt : (2 ^ d < 2 ^ Zdigits2 m)%Z) by lia.
  apply Z.pow_lt_mono_r_iff in Hlt; [lia | lia | apply Zdigits2_nonneg].
Qed.

(** The magnitude of [m * 2 ^ e] bounds the digits of [m]. *)
Lemma digits_magnitude (m e B : Z) :
  (0 < m)%Z -> (inject_Z m * pow2 e < pow2 B)%Q -> (Zdigits2 m + e <= B)%Z.
Proof.
  intros Hm Hlt.
  destruct (Zdigits2_spec m Hm) as [Hlo _].
  assert (Hd : (0 <= Zdigits2 m - 1)%Z)
    by (pose proof (Zdigits2_pos m Hm); lia).
  assert (H1 : (pow2 (Zdigits2 m - 1 + e) <= inject_Z m * pow2 e)%Q).
  { rewrite pow2_add, (pow2_inject _ Hd).
    apply Qmult_le_compat_r; [now rewrite <- Zle_Qle | apply Qlt_le_weak, pow2_pos]. }
  assert (H2 : (pow2 (Zdigits2 m - 1 + e) < pow2 B)%Q) by Lqa.lra.
  apply pow2_lt_inv in H2. lia.
Qed.

(** *** Where a number lies between two multiples of a unit *)

Lemma located_unit (x u v : Q) (m : Z) (l : location) :
  (u == v)%Q -> located x u m l -> located x v m l.
Proof.
  intros Huv. destruct l as [|[| |]]; simpl; rewrite Huv; auto.
Qed.

Lemma loc_of_shr_record_of_loc (m : Z) (l : location) :
  loc_of_shr_record (shr_record_of_loc m l) = l /\
  shr_m (shr_record_of_loc m l) = m.
Proof. destruct l as [|[| |]]; split; reflexivity. Qed.

Lemma inject_Z_xO (p : positive) : (inject_Z (Zpos p~0) == 2 * inject_Z (Zpos p))%Q.
Proof. change (Zpos p~0) with (2 * Zpos p)%Z. now rewrite inject_Z_mult. Qed.

Lemma inject_Z_xI (p : positive) :
  (inject_Z (Zpos p~1) == 2 * inject_Z (Zpos p) + 1)%Q.
Proof.
  change (Zpos p~1) with (2 * Zpos p + 1)%Z.
  now rewrite inject_Z_plus, inject_Z_mult.
Qed.

(** One shift to the right doubles the unit and keeps the place. *)
Lemma shr_1_located (x u : Q) (mrs : shr_record) :
  (0 < u)%Q -> (0 <= shr_m mrs)%Z ->
  located x u (shr_m mrs) (loc_of_shr_record mrs) ->
  located x (2 * u) (shr_m (shr_1 mrs)) (loc_of_shr_record (shr_1 mrs)).
Proof.
  intros Hu Hm. destruct mrs as [m r s]. cbn [shr_m] in Hm |- *.
  destruct m as [|[p|p|]|p]; try lia;
    destruct r, s; cbn [shr_1 shr_m loc_of_shr_record orb located];
    try (pose proof (inject_Z_xO p) as HpO; pose proof (inject_Z_xI p) as HpI);
    try change (inject_Z 0) with 0%Q; try change (inject_Z 1) with 1%Q;
    intros H;
    try match type of H with _ /\ _ => destruct H as [H1 H2] end;
    try rewrite HpO in *; try rewrite HpI in *;
    try (split; Lqa.lra); try Lqa.lra.
Qed.

Lemma shr_1_m (mrs : shr_record) :
  (0 <= shr_m mrs)%Z -> shr_m (shr_1 mrs) = (shr_m mrs / 2)%Z.
Proof.
  destruct mrs as [m r s]. cbn [shr_m]. intros Hm.
  destruct m as [|[p|p|]|p]; try lia; cbn [shr_1 shr_m].
  - reflexivity.
  - rewrite <- Z.div2_div. reflexivity.
  - rewrite <- Z.div2_div. reflexivity.
  - reflexivity.
Qed.

Lemma iter_pos_nat {A : Type} (f : A -> A) (p : positive) (v : A) :
  iter_pos f p v = Nat.iter (Pos.to_nat p) f v.
Proof.
  revert v. induction p as [p IH|p IH|]; intros v; cbn [iter_pos].
  - rewrite !IH, Pos2Nat.inj_xI.
    replace (S (2 * Pos.to_nat p)) with (Pos.to_nat p + Pos.to_nat p + 1)%nat by lia.
    rewrite !Nat.iter_add. reflexivity.
  - rewrite !IH, Pos2Nat.inj_xO.
    replace (2 * Pos.to_nat p)%nat with (Pos.to_nat p + Pos.to_nat p)%nat by lia.
    rewrite Nat.iter_add. reflexivity.
  - reflexivity.
Qed.

(** [n] shifts to the right. *)
Lemma shr_iter_located (x u : Q) (n : nat) (mrs : shr_record) :
  (0 < u)%Q -> (0 <= shr_m mrs)%Z ->
  located x u (shr_m mrs) (loc_of_shr_record mrs) ->
  let mrs' := Nat.iter n shr_1 mrs in
  located x (inject_Z (2 ^ Z.of_nat n) * u) (shr_m mrs') (loc_of_shr_record mrs') /\
  shr_m mrs' = (shr_m mrs / 2 ^ Z.of_nat n)%Z.
Proof.
  intros Hu Hm Hloc. induction n as [|n IH].
  - cbv zeta. change (Nat.iter 0 shr_1 mrs) with mrs. split.
    + apply (located_unit x u); [change (2 ^ Z.of_nat 0)%Z with 1%Z; ring | exact Hloc].
    + change (2 ^ Z.of_nat 0)%Z with 1%Z. now rewrite Z.div_1_r.
  - cbv zeta in IH |- *. rewrite Nat.iter_succ. destruct IH as [IH1 IH2].
    set (prev := Nat.iter n shr_1 mrs) in *.
    assert (Hprev : (0 <= shr_m prev)%Z).
    { rewrite IH2. apply Z.div_pos; [exact Hm | apply Z.pow_pos_nonneg; lia]. }
    assert (Hpow : (2 ^ Z.of_nat (S n) = 2 * 2 ^ Z.of_nat n)%Z).
    { rewrite Nat2Z.inj_succ, Z.pow_succ_r by lia. reflexivity. }
    split.
    + apply (located_unit x (2 * (inject_Z (2 ^ Z.of_nat n) * u))).
      { rewrite Hpow, inject_Z_mult. ring. }
      apply shr_1_located; [|exact Hprev | exact IH1].
      apply Qmult_lt_0_compat; [|exact Hu].
      change 0%Q with (inject_Z 0). rewrite <- Zlt_Qlt. apply Z.pow_pos_nonneg; lia.
    + rewrite (shr_1_m prev Hprev), IH2, Hpow.
      rewrite Z.div_div by (try lia; apply Z.pow_pos_nonneg; lia).
      f_equal. lia.
Qed.

(** [shr]: the mantissa is divided by [2 ^ n], the exponent grows by
    [n], and the place is kept. *)
Lemma shr_located (x : Q) (mrs : shr_record) (e n : Z) :
  (0 <= shr_m mrs)%Z ->
  located x (pow2 e) (shr_m mrs) (loc_of_shr_record mrs) ->
  let k := Z.max n 0 in
  located x (pow2 (e + k)) (shr_m (fst (shr mrs e n)))
          (loc_of_shr_record (fst (shr mrs e n))) /\
  snd (shr mrs e n) = (e + k)%Z /\
  shr_m (fst (shr mrs e n)) = (shr_m mrs / 2 ^ k)%Z.
Proof.
  intros Hm Hloc k. unfold shr. destruct n as [|p|p]; cbn [fst snd]; subst k.
  - rewrite Z.max_id, Z.add_0_r. split; [exact Hloc|]. split; [reflexivity|].
    now rewrite Z.div_1_r.
  - rewrite Z.max_l by lia. rewrite iter_pos_nat.
    destruct (shr_iter_located x (pow2 e) (Pos.to_nat p) mrs (pow2_pos e) Hm Hloc)
      as [H1 H2].
    rewrite positive_nat_Z in H1, H2.
    split; [|split; [reflexivity | exact H2]].
    apply (located_unit x (inject_Z (2 ^ Z.pos p) * pow2 e)); [|exact H1].
    rewrite pow2_add, <- (pow2_inject (Zpos p)) by lia. ring.
  - rewrite Z.max_r by lia. rewrite Z.add_0_r. split; [exact Hloc|].
    split; [reflexivity|]. now rewrite Z.div_1_r.
Qed.

(** *** Rounding to nearest, ties to even *)

Lemma round_nearest_even_located (x u : Q) (m : Z) (l : location) :
  (0 < u)%Q -> located x u m l ->
  let k := round_nearest_even m l in
  (k = m \/ k = (m + 1)%Z) /\
  (l = loc_Exact -> k = m) /\
  (inject_Z k * u - x <= u / 2)%Q /\ (x - inject_Z k * u <= u / 2)%Q.
Proof.
  intros Hu Hloc. unfold Qdiv. change (/ 2)%Q with (1 # 2)%Q.
  assert (Hsucc : (inject_Z (m + 1) == inject_Z m + 1)%Q)
    by (rewrite inject_Z_plus; reflexivity).
  destruct l as [|[| |]]; cbn [located round_nearest_even] in *.
  - split; [now left|]. split; [reflexivity|]. split; Lqa.lra.
  - destruct (Z.even m).
    + split; [now left|]. split; [discriminate|]. split; Lqa.lra.
    + split; [now right|]. split; [discriminate|]. rewrite Hsucc. split; Lqa.lra.
  - destruct Hloc as [H1 H2].
    split; [now left|]. split; [discriminate|]. split; Lqa.lra.
  - destruct Hloc as [H1 H2].
    split; [now right|]. split; [discriminate|]. rewrite Hsucc. split; Lqa.lra.
Qed.

(** *** Rounding a located number to binary64 *)

Lemma fexp64 (e : Z) : fexp 53 1024 e = Z.max (e - 53) (-1074).
Proof. reflexivity. Qed.

(** After the first shift the mantissa fits the format. *)
Lemma shifted_mantissa_fits (m e : Z) :
  (0 <= m)%Z ->
  let E := Z.max e (fexp 53 1024 (Zdigits2 m + e)) in
  let m' := (m / 2 ^ (E - e))%Z in
  (0 <= m')%Z /\ (Zdigits2 m' <= 53)%Z /\ (-1074 <= E)%Z.
Proof.
  intros Hm E m'.
  assert (HEdef : E = Z.max e (Z.max (Zdigits2 m + e - 53) (-1074)))
    by reflexivity.
  clearbody E.
  assert (Hpow : (0 < 2 ^ (E - e))%Z) by (apply Z.pow_pos_nonneg; lia).
  assert (Hm' : (0 <= m')%Z) by (apply Z.div_pos; lia).
  split; [exact Hm'|].
  assert (HE : (-1074 <= E)%Z).
  { lia. }
  split; [|lia].
  destruct (Z.eq_dec m 0) as [->|Hne].
  { subst m'. rewrite Z.div_0_l by lia. simpl. lia. }
  destruct (Zdigits2_spec m ltac:(lia)) as [_ Hhi].
  pose proof (Zdigits2_pos m ltac:(lia)) as Hd.
  set (d := Zdigits2 m) in *.
  destruct (Z_le_gt_dec (E - e) d) as [Hle|Hgt].
  - apply Zdigits2_le; [|lia]. split; [exact Hm'|].
    apply Z.div_lt_upper_bound; [lia|].
    rewrite <- Z.pow_add_r by lia.
    apply Z.lt_le_trans with (1 := Hhi).
    apply Z.pow_le_mono_r; lia.
  - assert (Hzero : m' = 0%Z).
    { apply Z.div_small. split; [lia|].
      apply Z.lt_le_trans with (1 := Hhi). apply Z.pow_le_mono_r; lia. }
    rewrite Hzero. simpl. lia.
Qed.

(** Rounding adds a digit only when it reaches a power of two. *)
Lemma rounded_digits (m k : Z) :
  (0 <= m)%Z -> k = m \/ k = (m + 1)%Z ->
  (Zdigits2 k <= Zdigits2 m)%Z \/ k = (2 ^ Zdigits2 m)%Z.
Proof.
  intros Hm [->| ->]; [left; lia|].
  destruct (Z.eq_dec m 0) as [->|Hne]; [right; reflexivity|].
  destruct (Zdigits2_spec m ltac:(lia)) as [_ Hhi].
  destruct (Z.eq_dec (m + 1) (2 ^ Zdigits2 m)) as [Heq|Hlt]; [now right|].
  left. apply Zdigits2_le; [lia | apply Zdigits2_nonneg].
Qed.

Lemma Zdigits2_pow2 (d : Z) : (0 <= d)%Z -> Zdigits2 (2 ^ d) = (d + 1)%Z.
Proof.
  intros Hd. apply Z.le_antisymm.
  - apply Zdigits2_le; [|lia]. split; [apply Z.pow_nonneg; lia|].
    apply Z.pow_lt_mono_r; lia.
  - apply Zdigits2_ge; [lia | exact Hd].
Qed.

(** [binary_round_aux] rounds a located number to the nearest multiple
    of [2 ^ E], where [E] is the exponent that the digits of the mantissa
    ask for. *)
Lemma binary_round_aux_correct (sx : bool) (m e : Z) (l : location) (x : Q) (E : Z) :
  (0 <= m)%Z -> located x (pow2 e) m l ->
  E = Z.max e (fexp 53 1024 (Zdigits2 m + e)) ->
  exists k : Z,
    (0 <= k)%Z /\
    (inject_Z k * pow2 E - x <= pow2 E / 2)%Q /\
    (x - inject_Z k * pow2 E <= pow2 E / 2)%Q /\
    ((E + 1 <= 971)%Z ->
     represents (binary_round_aux 53 1024 sx m e l) sx k E).
Proof.
  intros Hm Hloc HE0.
  destruct (shifted_mantissa_fits m e Hm) as (Hm' & Hdm' & HE).
  rewrite <- HE0 in Hm', Hdm', HE.
  unfold binary_round_aux, shr_fexp.
  remember (fexp 53 1024 (Zdigits2 m + e) - e)%Z as n1 eqn:Hn1.
  destruct (loc_of_shr_record_of_loc m l) as [Hl0 Hm0].
  destruct (shr_located x (shr_record_of_loc m l) e n1) as (Hloc1 & He1 & Hm1).
  { now rewrite Hm0. }
  { now rewrite Hl0, Hm0. }
  destruct (shr (shr_record_of_loc m l) e n1) as [mrs' e'].
  cbn [fst snd] in Hloc1, He1, Hm1.
  assert (HkE : Z.max n1 0 = (E - e)%Z) by lia.
  rewrite HkE, Hm0 in Hm1.
  replace (e + Z.max n1 0)%Z with E in Hloc1, He1 by lia.
  subst e'. rewrite <- Hm1 in Hm', Hdm'.
  remember (shr_m mrs') as m' eqn:Hm'def.
  remember (round_nearest_even m' (loc_of_shr_record mrs')) as k eqn:Hkdef.
  destruct (round_nearest_even_located x (pow2 E) m' (loc_of_shr_record mrs')
              (pow2_pos E) Hloc1) as (Hk & _ & Hup & Hdown).
  rewrite <- Hkdef in Hk, Hup, Hdown.
  exists k.
  split; [destruct Hk; lia|]. split; [exact Hup|]. split; [exact Hdown|].
  intros Hover.
  (* the second shift *)
  remember (fexp 53 1024 (Zdigits2 k + E) - E)%Z as n2 eqn:Hn2def.
  assert (Hn2 : (n2 <= 0)%Z \/ (n2 = 1%Z /\ k = (2 ^ 53)%Z)).
  { rewrite fexp64 in Hn2def.
    destruct (rounded_digits m' k Hm' Hk) as [Hdk|Hpow].
    - left. lia.
    - pose proof (Zdigits2_nonneg m') as Hd0.
      rewrite Hpow, (Zdigits2_pow2 _ Hd0) in Hn2def.
      destruct (Z.eq_dec (Zdigits2 m') 53) as [H53|Hne].
      + destruct (Z_le_gt_dec n2 0) as [Hle|Hgt]; [now left|].
        right. split; [lia|]. now rewrite Hpow, H53.
      + left. lia. }
  cbn [shr_record_of_loc]. unfold shr.
  destruct Hn2 as [Hn2|[Hn2 Hk53]].
  - assert (Hle : (E <=? 1024 - 53)%Z = true) by (apply Z.leb_le; lia).
    destruct n2 as [|p|p]; try lia; cbn [shr_m];
      (destruct k as [|pk|pk]; [split; reflexivity | | lia]);
      rewrite Hle; split; reflexivity.
  - rewrite Hn2, Hk53.
    cbn [iter_pos shr_1 shr_m Z.pow Z.pow_pos Pos.iter Z.mul Pos.mul].
    assert (Hle : (E + 1 <=? 1024 - 53)%Z = true) by (apply Z.leb_le; lia).
    rewrite Hle. split; [reflexivity|].
    rewrite pow2_succ.
    change (inject_Z (Zpos 9007199254740992))
      with (inject_Z 2 * inject_Z (Zpos 4503599627370496))%Q.
    change (inject_Z 2) with 2%Q. ring.
Qed.

Lemma pow2_le_inv (a b : Z) : (pow2 a <= pow2 b)%Q -> (a <= b)%Z.
Proof. intros H. apply (Qpower_le_compat_l_inv 2); [exact H | reflexivity]. Qed.

(** *** Multiples of a power of two *)

Lemma inject_Z_half_le (k j : Z) :
  (inject_Z k <= inject_Z j + (1 # 2))%Q -> (k <= j)%Z.
Proof.
  intros H. destruct (Z_le_gt_dec k j) as [Hle|Hgt]; [exact Hle|].
  assert (H1 : (inject_Z (j + 1) <= inject_Z k)%Q) by (rewrite <- Zle_Qle; lia).
  rewrite inject_Z_plus in H1. change (inject_Z 1) with 1%Q in H1. exfalso. Lqa.lra.
Qed.

(** A number rounded to the nearest multiple of [u] does not cross a
    multiple of [u]. *)
Lemma rounded_le_multiple (x u : Q) (k j : Z) :
  (0 < u)%Q -> (inject_Z k * u - x <= u / 2)%Q -> (x <= inject_Z j * u)%Q ->
  (inject_Z k * u <= inject_Z j * u)%Q.
Proof.
  intros Hu Hup Hx. unfold Qdiv in Hup. change (/ 2)%Q with (1 # 2)%Q in Hup.
  apply Qmult_le_compat_r; [|now apply Qlt_le_weak].
  rewrite <- Zle_Qle. apply inject_Z_half_le.
  apply (Qmult_le_r _ _ u Hu). Lqa.lra.
Qed.

Lemma rounded_ge_multiple (x u : Q) (k j : Z) :
  (0 < u)%Q -> (x - inject_Z k * u <= u / 2)%Q -> (inject_Z j * u <= x)%Q ->
  (inject_Z j * u <= inject_Z k * u)%Q.
Proof.
  intros Hu Hdown Hx. unfold Qdiv in Hdown. change (/ 2)%Q with (1 # 2)%Q in Hdown.
  apply Qmult_le_compat_r; [|now apply Qlt_le_weak].
  rewrite <- Zle_Qle. apply inject_Z_half_le.
  apply (Qmult_le_r _ _ u Hu). Lqa.lra.
Qed.

(** An integer is a multiple of [2 ^ E] when [E <= 0]. *)
Lemma integer_multiple (n E : Z) :
  (E <= 0)%Z -> (inject_Z n == inject_Z (n * 2 ^ (- E)) * pow2 E)%Q.
Proof.
  intros HE. rewrite inject_Z_mult, <- (pow2_inject (- E)) by lia.
  rewrite <- Qmult_assoc, <- pow2_add.
  replace (- E + E)%Z with 0%Z by lia. change (pow2 0) with 1%Q. ring.
Qed.

(** *** What a represented float is *)

Lemma represents_value (r : spec_float) (k E : Z) :
  represents r false k E ->
  np.is_finite r = true /\ (np.to_Q r == inject_Z k * pow2 E)%Q.
Proof.
  destruct r as [s|s| |s m e]; cbn [represents]; try contradiction.
  - intros [_ ->]. split; [reflexivity|]. simpl. ring.
  - intros [-> H]. split; [reflexivity|]. exact H.
Qed.

Lemma located_ge (x u : Q) (m : Z) (l : location) :
  (0 < u)%Q -> located x u m l -> (inject_Z m * u <= x)%Q.
Proof.
  intros Hu. destruct l as [|[| |]]; cbn [located]; intros H;
    try match type of H with _ /\ _ => destruct H as [H1 H2] end; Lqa.lra.
Qed.

(** *** Rounding a number of known magnitude *)

(** A located number below [2 ^ B], given with an exponent that is small
    enough, is rounded to a multiple of [2 ^ E] with [E <= fexp B]; no
    overflow occurs. *)
Lemma round_located (sx : bool) (m e : Z) (l : location) (x : Q) (B : Z) :
  (0 <= m)%Z -> located x (pow2 e) m l ->
  (x < pow2 B)%Q -> (e <= fexp 53 1024 B)%Z -> (fexp 53 1024 B + 1 <= 971)%Z ->
  exists k E : Z,
    (E <= fexp 53 1024 B)%Z /\ (0 <= k)%Z /\
    represents (binary_round_aux 53 1024 sx m e l) sx k E /\
    (inject_Z k * pow2 E - x <= pow2 E / 2)%Q /\
    (x - inject_Z k * pow2 E <= pow2 E / 2)%Q.
Proof.
  intros Hm Hloc Hx He Hover.
  assert (HE : (Z.max e (fexp 53 1024 (Zdigits2 m + e)) <= fexp 53 1024 B)%Z).
  { rewrite !fexp64 in *.
    destruct (Z.eq_dec m 0) as [->|Hne]; [simpl; lia|].
    assert (Hd : (Zdigits2 m + e <= B)%Z).
    { apply digits_magnitude; [lia|].
      apply Qle_lt_trans with (2 := Hx).
      apply (located_ge x (pow2 e) m l (pow2_pos e) Hloc). }
    lia. }
  destruct (binary_round_aux_correct sx m e l x _ Hm Hloc eq_refl)
    as (k & Hk & Hup & Hdown & Hrep).
  exists k, (Z.max e (fexp 53 1024 (Zdigits2 m + e))).
  split; [exact HE|]. split; [exact Hk|].
  split; [apply Hrep; lia|]. split; [exact Hup | exact Hdown].
Qed.

(** *** Multiplication *)

Lemma mul_correct (mx my : positive) (ex ey B : Z) :
  let x := (inject_Z (Zpos mx) * pow2 ex * (inject_Z (Zpos my) * pow2 ey))%Q in
  (x < pow2 B)%Q -> (ex + ey <= fexp 53 1024 B)%Z -> (fexp 53 1024 B + 1 <= 971)%Z ->
  exists k E : Z,
    (E <= fexp 53 1024 B)%Z /\ (0 <= k)%Z /\
    represents (np.mul (S754_finite false mx ex) (S754_finite false my ey)) false k E /\
    (inject_Z k * pow2 E - x <= pow2 E / 2)%Q /\
    (x - inject_Z k * pow2 E <= pow2 E / 2)%Q.
Proof.
  intros x Hx He Hover. unfold np.mul, SFmul. cbn [xorb].
  apply (round_located false (Zpos (mx * my)) (ex + ey) loc_Exact x B);
    [lia | | exact Hx | exact He | exact Hover].
  cbn [located]. subst x. rewrite Pos2Z.inj_mul, inject_Z_mult, pow2_add. ring.
Qed.

(** *** Integers *)

Lemma shl_align_correct (mx : positive) (ex ex' : Z) :
  (inject_Z (Zpos (fst (shl_align mx ex ex'))) * pow2 (snd (shl_align mx ex ex'))
   == inject_Z (Zpos mx) * pow2 ex)%Q /\
  snd (shl_align mx ex ex') = Z.min ex ex'.
Proof.
  unfold shl_align. destruct (ex' - ex)%Z as [|d|d] eqn:Hd; cbn [fst snd].
  - split; [reflexivity | lia].
  - split; [reflexivity | lia].
  - split; [|lia].
    change (Pos.iter xO mx d) with (shift_pos d mx).
    rewrite shift_pos_correct, Z.pow_pos_fold, inject_Z_mult.
    rewrite <- (pow2_inject (Zpos d)) by lia.
    replace ex with (Zpos d + ex')%Z by lia. rewrite (pow2_add (Zpos d) ex').
    ring.
Qed.

(** [binary_round] rounds [m * 2 ^ e]. *)
Lemma binary_round_correct (sx : bool) (mx : positive) (ex B : Z) :
  let x := (inject_Z (Zpos mx) * pow2 ex)%Q in
  (x < pow2 B)%Q -> (fexp 53 1024 B + 1 <= 971)%Z ->
  exists k E : Z,
    (E <= fexp 53 1024 B)%Z /\ (0 <= k)%Z /\
    represents (binary_round 53 1024 sx mx ex) sx k E /\
    (inject_Z k * pow2 E - x <= pow2 E / 2)%Q /\
    (x - inject_Z k * pow2 E <= pow2 E / 2)%Q.
Proof.
  intros x Hx Hover. unfold binary_round.
  set (ex' := fexp 53 1024 (Zpos (digits2_pos mx) + ex)).
  destruct (shl_align_correct mx ex ex') as [Hval Hexp].
  destruct (shl_align mx ex ex') as [mz ez]. cbn [fst snd] in Hval, Hexp.
  apply (round_located sx (Zpos mz) ez loc_Exact x B);
    [lia | | exact Hx | | exact Hover].
  - cbn [located]. subst x. now rewrite Hval.
  - assert (Hd : (Zdigits2 (Zpos mx) + ex <= B)%Z)
      by (apply digits_magnitude; [lia | exact Hx]).
    change (Zdigits2 (Zpos mx)) with (Zpos (digits2_pos mx)) in Hd.
    subst ex'. rewrite !fexp64 in *. lia.
Qed.

(** A positive integer below [2 ^ 53] is a float. *)
Lemma of_Z_exact (n : Z) :
  (0 < n < 2 ^ 53)%Z ->
  exists k E : Z,
    represents (np.of_Z n) false k E /\ (inject_Z k * pow2 E == inject_Z n)%Q /\
    (0 < k)%Z.
Proof.
  intros [Hpos Hlt]. destruct n as [|pn|pn]; try lia.
  unfold np.of_Z, binary_normalize.
  destruct (binary_round_correct false pn 0 53) as (k & E & HE & Hk & Hrep & Hup & Hdown).
  { change (pow2 0) with 1%Q. rewrite Qmult_1_r, (pow2_inject 53) by lia.
    now rewrite <- Zlt_Qlt. }
  { rewrite fexp64. lia. }
  rewrite fexp64 in HE. change (pow2 0) with 1%Q in Hup, Hdown.
  rewrite Qmult_1_r in Hup, Hdown.
  assert (HE0 : (E <= 0)%Z) by lia.
  pose proof (integer_multiple (Zpos pn) E HE0) as Hint.
  set (j := (Zpos pn * 2 ^ (- E))%Z) in *.
  assert (Hkj : k = j).
  { apply Z.le_antisymm.
    - rewrite Zle_Qle. apply (Qmult_le_r _ _ (pow2 E) (pow2_pos E)).
      apply (rounded_le_multiple (inject_Z (Zpos pn)) (pow2 E) k j (pow2_pos E) Hup).
      rewrite <- Hint. apply Qle_refl.
    - rewrite Zle_Qle. apply (Qmult_le_r _ _ (pow2 E) (pow2_pos E)).
      apply (rounded_ge_multiple (inject_Z (Zpos pn)) (pow2 E) k j (pow2_pos E) Hdown).
      rewrite <- Hint. apply Qle_refl. }
  exists k, E. split; [exact Hrep|]. split; [now rewrite Hkj, <- Hint|].
  subst k j. apply Z.mul_pos_pos; [lia | apply Z.pow_pos_nonneg; lia].
Qed.

(** The value of [m * 2 ^ e] between two powers of two. *)
Lemma digits_value (m e : Z) :
  (0 < m)%Z ->
  (pow2 (Zdigits2 m - 1 + e) <= inject_Z m * pow2 e)%Q /\
  (inject_Z m * pow2 e < pow2 (Zdigits2 m + e))%Q.
Proof.
  intros Hm. destruct (Zdigits2_spec m Hm) as [Hlo Hhi].
  pose proof (Zdigits2_pos m Hm) as Hd.
  split.
  - rewrite pow2_add, (pow2_inject (Zdigits2 m - 1)) by lia.
    apply Qmult_le_compat_r; [now rewrite <- Zle_Qle | apply Qlt_le_weak, pow2_pos].
  - rewrite pow2_add, (pow2_inject (Zdigits2 m)) by lia.
    apply Qmult_lt_compat_r; [apply pow2_pos | now rewrite <- Zlt_Qlt].
Qed.

(** *** Division *)

Lemma scale_fraction (f a u : Q) :
  (0 < u)%Q ->
  ((f < a)%Q -> (f * u < a * u)%Q) /\
  ((a < f)%Q -> (a * u < f * u)%Q) /\
  ((f == a)%Q -> (f * u == a * u)%Q).
Proof.
  intros Hu. split; [|split]; intros H.
  - now apply Qmult_lt_compat_r.
  - now apply Qmult_lt_compat_r.
  - now rewrite H.
Qed.

(** The place of a quotient, from the remainder of the division. *)
Lemma new_location_located (nb r q : Z) (x u : Q) :
  (0 < nb)%Z -> (0 <= r < nb)%Z -> (0 < u)%Q ->
  (x == (inject_Z q + inject_Z r / inject_Z nb) * u)%Q ->
  located x u q (new_location nb r).
Proof.
  intros Hnb [Hr0 Hr1] Hu Hx.
  assert (HN : (0 < inject_Z nb)%Q)
    by (change 0%Q with (inject_Z 0); now rewrite <- Zlt_Qlt).
  set (f := (inject_Z r / inject_Z nb)%Q) in *.
  assert (Hlt : forall a b : Z,
             (a * r < b * nb)%Z -> (inject_Z a * f < inject_Z b)%Q).
  { intros a b Hab. unfold f.
    setoid_replace (inject_Z a * (inject_Z r / inject_Z nb))%Q
      with ((inject_Z a * inject_Z r) / inject_Z nb)%Q by (field; Lqa.lra).
    apply Qlt_shift_div_r; [exact HN|].
    rewrite <- !inject_Z_mult, <- Zlt_Qlt. exact Hab. }
  assert (Hgt : forall a b : Z,
             (b * nb < a * r)%Z -> (inject_Z b < inject_Z a * f)%Q).
  { intros a b Hab. unfold f.
    setoid_replace (inject_Z a * (inject_Z r / inject_Z nb))%Q
      with ((inject_Z a * inject_Z r) / inject_Z nb)%Q by (field; Lqa.lra).
    apply Qlt_shift_div_l; [exact HN|].
    rewrite <- !inject_Z_mult, <- Zlt_Qlt. exact Hab. }
  assert (Heq : forall a b : Z,
             (a * r = b * nb)%Z -> (inject_Z a * f == inject_Z b)%Q).
  { intros a b Hab. unfold f.
    setoid_replace (inject_Z a * (inject_Z r / inject_Z nb))%Q
      with ((inject_Z a * inject_Z r) / inject_Z nb)%Q by (field; Lqa.lra).
    rewrite <- inject_Z_mult, Hab, inject_Z_mult. field. Lqa.lra. }
  assert (Hexp : (x == inject_Z q * u + f * u)%Q) by (rewrite Hx; ring).
  clearbody f.
  assert (Hcase : (r = 0%Z /\ new_location nb r = loc_Exact) \/
                  ((0 < r)%Z /\ (2 * r < 1 * nb)%Z
                   /\ new_location nb r = loc_Inexact Lt) \/
                  ((0 < r)%Z /\ (2 * r = 1 * nb)%Z
                   /\ new_location nb r = loc_Inexact Eq) \/
                  ((0 < r)%Z /\ (1 * nb < 2 * r)%Z
                   /\ new_location nb r = loc_Inexact Gt)).
  { unfold new_location.
    destruct (Z.even nb) eqn:Heven;
      [unfold new_location_even | unfold new_location_odd];
      (destruct (Z.eqb_spec r 0) as [->|Hne];
       [left; split; reflexivity | right]).
    - destruct (Z.compare_spec (2 * r) nb) as [Hc|Hc|Hc].
      + right. left. split; [lia|]. split; [lia | reflexivity].
      + left. split; [lia|]. split; [lia | reflexivity].
      + right. right. split; [lia|]. split; [lia | reflexivity].
    - assert (Hodd : (2 * r <> nb)%Z).
      { intros Heq2. rewrite <- Heq2, Z.even_mul in Heven. discriminate Heven. }
      destruct (Z.compare_spec (2 * r + 1) nb) as [Hc|Hc|Hc].
      + left. split; [lia|]. split; [lia | reflexivity].
      + left. split; [lia|]. split; [lia | reflexivity].
      + right. right. split; [lia|]. split; [lia | reflexivity]. }
  destruct Hcase as [[-> ->]|[(Hr & Hc & ->)|[(Hr & Hc & ->)|(Hr & Hc & ->)]]];
    cbn [located].
  - pose proof (Heq 1%Z 0%Z eq_refl) as H0.
    change (inject_Z 1) with 1%Q in H0. change (inject_Z 0) with 0%Q in H0.
    rewrite Hexp. setoid_replace f with 0%Q by Lqa.lra. ring.
  - pose proof (Hlt 2%Z 1%Z Hc) as H1. pose proof (Hgt 1%Z 0%Z ltac:(lia)) as H0.
    change (inject_Z 2) with 2%Q in H1. change (inject_Z 1) with 1%Q in H0, H1.
    change (inject_Z 0) with 0%Q in H0.
    destruct (scale_fraction f (1 # 2) u Hu) as (Hs1 & _ & _).
    destruct (scale_fraction f 0 u Hu) as (_ & Hs2 & _).
    specialize (Hs1 ltac:(Lqa.lra)). specialize (Hs2 ltac:(Lqa.lra)).
    split; Lqa.lra.
  - pose proof (Heq 2%Z 1%Z Hc) as H1.
    change (inject_Z 2) with 2%Q in H1. change (inject_Z 1) with 1%Q in H1.
    destruct (scale_fraction f (1 # 2) u Hu) as (_ & _ & Hs1).
    specialize (Hs1 ltac:(Lqa.lra)). Lqa.lra.
  - pose proof (Hgt 2%Z 1%Z Hc) as H1. pose proof (Hlt 1%Z 1%Z ltac:(lia)) as H0.
    change (inject_Z 2) with 2%Q in H1. change (inject_Z 1) with 1%Q in H0, H1.
    destruct (scale_fraction f (1 # 2) u Hu) as (_ & Hs1 & _).
    destruct (scale_fraction f 1 u Hu) as (Hs2 & _ & _).
    specialize (Hs1 ltac:(Lqa.lra)). specialize (Hs2 ltac:(Lqa.lra)).
    split; Lqa.lra.
Qed.

Lemma div_core_located (m1 m2 : positive) (e1 e2 : Z) :
  let x := (inject_Z (Zpos m1) * pow2 e1 / (inject_Z (Zpos m2) * pow2 e2))%Q in
  let '(q, e', l) := SFdiv_core_binary 53 1024 (Zpos m1) e1 (Zpos m2) e2 in
  (0 <= q)%Z /\ located x (pow2 e') q l /\
  (e' <= fexp 53 1024 (Zdigits2 (Zpos m1) + e1 - (Zdigits2 (Zpos m2) + e2)))%Z.
Proof.
  intros x. unfold SFdiv_core_binary.
  set (e' := Z.min (fexp 53 1024 (Zdigits2 (Zpos m1) + e1 - (Zdigits2 (Zpos m2) + e2)))
                   (e1 - e2)).
  set (s := (e1 - e2 - e')%Z).
  assert (Hs : (0 <= s)%Z) by (subst s e'; lia).
  set (m' := match s with
             | Zpos _ => Z.shiftl (Zpos m1) s
             | Z0 => Zpos m1
             | Zneg _ => Z0
             end).
  assert (Hm' : m' = (Zpos m1 * 2 ^ s)%Z).
  { subst m'. generalize s Hs. intros s0 Hs0.
    destruct s0 as [|ps|ps]; [simpl; lia | | lia].
    apply Z.shiftl_mul_pow2. lia. }
  clearbody m'.
  pose proof (Z_div_mod m' (Zpos m2) ltac:(lia)) as Hdiv.
  destruct (Z.div_eucl m' (Zpos m2)) as [q r]. destruct Hdiv as [Hqr Hr].
  assert (Hpow : (0 < 2 ^ s)%Z) by (apply Z.pow_pos_nonneg; lia).
  assert (Hm0 : (0 <= m')%Z) by (rewrite Hm'; apply Z.mul_nonneg_nonneg; lia).
  assert (Hq : (0 <= q)%Z).
  { destruct (Z_lt_le_dec q 0) as [Hneg|Hpos]; [|exact Hpos].
    assert (Hmul : (Zpos m2 * q <= Zpos m2 * (-1))%Z)
      by (apply Z.mul_le_mono_nonneg_l; lia).
    lia. }
  split; [exact Hq|]. split; [|subst e'; lia].
  apply new_location_located; [lia | exact Hr | apply pow2_pos|].
  subst x.
  assert (HN : (0 < inject_Z (Zpos m2))%Q) by reflexivity.
  pose proof (pow2_pos e2) as H2. pose proof (pow2_pos e') as H3.
  assert (He1 : (pow2 e1 == inject_Z (2 ^ s) * pow2 e' * pow2 e2)%Q).
  { rewrite <- (pow2_inject s), <- !pow2_add by lia. subst s.
    replace (e1 - e2 - e' + e' + e2)%Z with e1 by lia. reflexivity. }
  assert (Hm1 : (inject_Z (Zpos m1) * inject_Z (2 ^ s)
                 == inject_Z (Zpos m2) * inject_Z q + inject_Z r)%Q).
  { rewrite <- !inject_Z_mult, <- inject_Z_plus, <- Hqr, Hm'. reflexivity. }
  rewrite He1.
  set (P1 := inject_Z (Zpos m1)) in *. set (S := inject_Z (2 ^ s)) in *.
  set (P2 := inject_Z (Zpos m2)) in *.
  setoid_replace (P1 * (S * pow2 e' * pow2 e2) / (P2 * pow2 e2))%Q
    with ((P1 * S) / P2 * pow2 e')%Q by (field; split; Lqa.lra).
  rewrite Hm1. field. Lqa.lra.
Qed.

(** The quotient of a positive float by one that is not smaller. *)
Lemma div_correct (m1 m2 : positive) (e1 e2 : Z) :
  let x1 := (inject_Z (Zpos m1) * pow2 e1)%Q in
  let x2 := (inject_Z (Zpos m2) * pow2 e2)%Q in
  (x1 <= x2)%Q ->
  exists k E : Z,
    (E <= -52)%Z /\ (0 <= k)%Z /\
    represents (np.div (S754_finite false m1 e1) (S754_finite false m2 e2))
               false k E /\
    (inject_Z k * pow2 E - x1 / x2 <= pow2 E / 2)%Q /\
    (x1 / x2 - inject_Z k * pow2 E <= pow2 E / 2)%Q /\
    (inject_Z k * pow2 E <= 1)%Q.
Proof.
  intros x1 x2 Hle.
  assert (Hx1 : (0 < x1)%Q)
    by (apply Qmult_lt_0_compat; [reflexivity | apply pow2_pos]).
  assert (Hx2 : (0 < x2)%Q) by Lqa.lra.
  assert (Hx : (x1 / x2 <= 1)%Q) by (apply Qle_shift_div_r; Lqa.lra).
  unfold np.div, np.prec, np.emax, SFdiv. cbn [xorb].
  pose proof (div_core_located m1 m2 e1 e2) as Hcore. cbv zeta in Hcore.
  fold x1 x2 in Hcore.
  destruct (SFdiv_core_binary 53 1024 (Zpos m1) e1 (Zpos m2) e2)
    as [[q e'] l].
  destruct Hcore as (Hq & Hloc & He').
  assert (Hmag : (Zdigits2 (Zpos m1) + e1 - (Zdigits2 (Zpos m2) + e2) <= 0)%Z).
  { destruct (digits_value (Zpos m1) e1 ltac:(lia)) as [Hlo _].
    destruct (digits_value (Zpos m2) e2 ltac:(lia)) as [_ Hhi].
    fold x1 in Hlo. fold x2 in Hhi.
    assert (Hlt : (pow2 (Zdigits2 (Zpos m1) - 1 + e1)
                   < pow2 (Zdigits2 (Zpos m2) + e2))%Q) by Lqa.lra.
    apply pow2_lt_inv in Hlt. lia. }
  destruct (round_located false q e' l (x1 / x2) 1 Hq Hloc)
    as (k & E & HE & Hk & Hrep & Hup & Hdown).
  { change (pow2 1) with 2%Q. Lqa.lra. }
  { rewrite !fexp64 in *. lia. }
  { rewrite fexp64. lia. }
  rewrite fexp64 in HE.
  exists k, E. split; [lia|]. split; [exact Hk|]. split; [exact Hrep|].
  split; [exact Hup|]. split; [exact Hdown|].
  pose proof (integer_multiple 1 E ltac:(lia)) as Hone.
  change (inject_Z 1) with 1%Q in Hone.
  apply Qle_trans with (inject_Z (1 * 2 ^ (- E)) * pow2 E)%Q;
    [|rewrite <- Hone; apply Qle_refl].
  apply (rounded_le_multiple (x1 / x2) (pow2 E) k _ (pow2_pos E) Hup).
  rewrite <- Hone. exact Hx.
Qed.

(** *** Addition *)

Lemma add_correct (mx my : positive) (ex ey B : Z) :
  let x := (inject_Z (Zpos mx) * pow2 ex + inject_Z (Zpos my) * pow2 ey)%Q in
  (x < pow2 B)%Q -> (fexp 53 1024 B + 1 <= 971)%Z ->
  exists k E : Z,
    (E <= fexp 53 1024 B)%Z /\ (0 <= k)%Z /\
    represents (np.add (S754_finite false mx ex) (S754_finite false my ey)) false k E /\
    (inject_Z k * pow2 E - x <= pow2 E / 2)%Q /\
    (x - inject_Z k * pow2 E <= pow2 E / 2)%Q.
Proof.
  intros x Hx Hover. unfold np.add, SFadd. cbn [cond_Zopp].
  set (ez := Z.min ex ey).
  destruct (shl_align_correct mx ex ez) as [Hvx Hex].
  destruct (shl_align_correct my ey ez) as [Hvy Hey].
  destruct (shl_align mx ex ez) as [mx' ex'].
  destruct (shl_align my ey ez) as [my' ey'].
  cbn [fst snd] in *.
  assert (Hex' : ex' = ez) by (subst ez; lia).
  assert (Hey' : ey' = ez) by (subst ez; lia).
  subst ex' ey'.
  change (Zpos mx' + Zpos my')%Z with (Zpos (mx' + my')).
  cbn [binary_normalize].
  rewrite Hex' in Hvx. rewrite Hey' in Hvy.
  assert (Hsum : (inject_Z (Zpos (mx' + my')) * pow2 ez == x)%Q).
  { rewrite Pos2Z.inj_add, inject_Z_plus, Qmult_plus_distr_l, Hvx, Hvy. reflexivity. }
  assert (Hx' : (inject_Z (Zpos (mx' + my')) * pow2 ez < pow2 B)%Q)
    by (rewrite Hsum; exact Hx).
  destruct (binary_round_correct false (mx' + my') ez B Hx' Hover)
    as (k & E & HE & Hk & Hrep & Hup & Hdn).
  exists k, E. rewrite Hsum in Hup, Hdn.
  repeat split; assumption.
Qed.

Lemma nearest_even_between (lo hi : Z) (v : Q) :
  (inject_Z lo <= v)%Q -> (v <= inject_Z hi)%Q ->
  (lo <= np.nearest_even v <= hi)%Z.
Proof.
  intros Hlo Hhi. unfold np.nearest_even.
  pose proof (Qfloor_le v) as Hfl.
  assert (Hf_lo : (lo <= Qfloor v)%Z).
  { rewrite <- (Qfloor_Z lo). now apply Qfloor_resp_le. }
  assert (Hf_hi : (Qfloor v <= hi)%Z).
  { rewrite <- (Qfloor_Z hi). now apply Qfloor_resp_le. }
  set (f := Qfloor v) in *. clearbody f.
  assert (Hup : (0 < v - inject_Z f)%Q -> (f + 1 <= hi)%Z).
  { intros Hpos. assert (Hlt : (inject_Z f < inject_Z hi)%Q) by Lqa.lra.
    rewrite <- Zlt_Qlt in Hlt. lia. }
  destruct (v - inject_Z f ?= 1 # 2)%Q eqn:Hcmp.
  - apply Qeq_alt in Hcmp. destruct (Z.even f); [lia|].
    split; [lia|]. apply Hup. Lqa.lra.
  - lia.
  - apply Qgt_alt in Hcmp. split; [lia|]. apply Hup. Lqa.lra.
Qed.

Lemma finite_value (m : positive) (e : Z) :
  (np.to_Q (S754_finite false m e) == inject_Z (Zpos m) * pow2 e)%Q.
Proof. reflexivity. Qed.

Lemma finite_value_pos (m : positive) (e : Z) :
  (0 < inject_Z (Zpos m) * pow2 e)%Q.
Proof.
  apply Qmult_lt_0_compat; [|apply pow2_pos].
  change 0%Q with (inject_Z 0). rewrite <- Zlt_Qlt. lia.
Qed.

Lemma probability_cases (v : np.float64) :
  is_probability v = true ->
  (exists s, v = S754_zero s) \/
  (exists m e, v = S754_finite false m e /\
     (inject_Z (Zpos m) * pow2 e <= 1)%Q /\ (e <= 0)%Z).
Proof.
  destruct v as [s|s| |[|] m e]; try discriminate; intros H.
  - left. now exists s.
  - right. exists m, e. cbn [is_probability] in H.
    apply Qle_bool_iff in H. rewrite finite_value in H.
    split; [reflexivity|]. split; [exact H|].
    apply pow2_le_inv. change (pow2 0) with 1%Q.
    apply Qle_trans with (inject_Z (Zpos m) * pow2 e)%Q; [|exact H].
    pose proof (pow2_pos e) as Hp.
    assert (H1 : (1 <= inject_Z (Zpos m))%Q).
    { change 1%Q with (inject_Z 1). rewrite <- Zle_Qle. lia. }
    setoid_replace (pow2 e) with (1 * pow2 e)%Q at 1 by ring.
    apply Qmult_le_compat_r; [exact H1|]. now apply Qlt_le_weak.
Qed.

Lemma represents_probability (r : np.float64) (k E : Z) :
  represents r false k E -> (inject_Z k * pow2 E <= 1)%Q ->
  is_probability r = true.
Proof.
  intros Hrep Hle. destruct (represents_value r k E Hrep) as [_ Hv].
  destruct r as [s|s| |s m e]; cbn in Hrep; try contradiction.
  - reflexivity.
  - match type of Hrep with _ /\ _ => destruct Hrep as [Hs _] end. subst s.
    cbn [is_probability]. apply Qle_bool_iff. rewrite Hv. exact Hle.
Qed.

Lemma p5_float : np.of_Z (10 ^ Z.of_nat 5) = S754_finite false 6871947673600000 (-36).
Proof. vm_compute. reflexivity. Qed.

Lemma p5_value : (inject_Z (Zpos 6871947673600000) * pow2 (-36) == 100000)%Q.
Proof. vm_compute. reflexivity. Qed.

Lemma pow2_m36 : (pow2 (-36) == 1 # 68719476736)%Q.
Proof. vm_compute. reflexivity. Qed.

Lemma pow2_m52 : (pow2 (-52) == 1 # 4503599627370496)%Q.
Proof. vm_compute. reflexivity. Qed.

Lemma round_probability (v : np.float64) :
  is_probability v = true ->
  is_probability (np.round v 5) = true /\
  (Qabs (np.to_Q (np.round v 5) - np.to_Q v) <= (5 # 1000000) + (2 # 10000000000000000))%Q.
Proof.
  intros Hv. unfold np.round. rewrite p5_float.
  destruct (probability_cases v Hv) as [[s ->]|(mv & ev & -> & Hle & Hev)].
  { destruct s; vm_compute; split; try reflexivity; discriminate. }
  rewrite finite_value.
  pose proof (finite_value_pos mv ev) as Hpos.
  set (x0 := (inject_Z (Zpos mv) * pow2 ev)%Q) in *.
  (* the product *)
  assert (Hx : (x0 * (inject_Z (Zpos 6871947673600000) * pow2 (-36)) < pow2 17)%Q).
  { rewrite p5_value. change (pow2 17) with (131072 # 1)%Q. Lqa.lra. }
  destruct (mul_correct mv 6871947673600000 ev (-36) 17 Hx)
    as (k1 & E1 & HE1 & Hk1 & Hrep1 & Hup1 & Hdn1).
  { change (fexp 53 1024 17) with (-36)%Z. lia. }
  { change (fexp 53 1024 17) with (-36)%Z. lia. }
  change (fexp 53 1024 17) with (-36)%Z in HE1.
  rewrite p5_value in Hup1, Hdn1. fold x0 in Hup1, Hdn1.
  pose proof (pow2_le E1 (-36) HE1) as HpE1. rewrite pow2_m36 in HpE1.
  pose proof (pow2_pos E1) as HpE1pos.
  assert (Hy_hi : (inject_Z k1 * pow2 E1 <= 100000)%Q).
  { assert (Hm : (100000 == inject_Z (100000 * 2 ^ (- E1)) * pow2 E1)%Q).
    { apply (integer_multiple 100000 E1). lia. }
    apply Qle_trans with (inject_Z (100000 * 2 ^ (- E1)) * pow2 E1)%Q;
      [|rewrite <- Hm; apply Qle_refl].
    apply (rounded_le_multiple (x0 * 100000) (pow2 E1) k1 _ HpE1pos Hup1).
    rewrite <- Hm. Lqa.lra. }
  assert (Hy_lo : (0 <= inject_Z k1 * pow2 E1)%Q).
  { apply Qmult_le_0_compat; [|now apply Qlt_le_weak].
    change 0%Q with (inject_Z 0). rewrite <- Zle_Qle. exact Hk1. }
  destruct (represents_value _ _ _ Hrep1) as [_ Hval1].
  set (prod := np.mul (S754_finite false mv ev) (S754_finite false 6871947673600000 (-36))) in *.
  set (y := (inject_Z k1 * pow2 E1)%Q) in *.
  destruct prod as [s|s| |s m e]; cbn in Hrep1; try contradiction.
  { (* the product is zero *)
    match type of Hrep1 with _ /\ _ => destruct Hrep1 as [-> Hk0] end.
    cbn [np.rint]. change (np.div (S754_zero false) (S754_finite false 6871947673600000 (-36)))
      with (S754_zero false).
    split; [reflexivity|]. cbn [np.to_Q].
    assert (Hy0 : (y == 0)%Q) by (subst y; rewrite Hk0; ring).
    apply Qabs_Qle_condition.
    unfold Qdiv in Hup1, Hdn1. change (/ 2)%Q with (1 # 2)%Q in Hup1, Hdn1.
    split; Lqa.lra. }
  match type of Hrep1 with _ /\ _ => destruct Hrep1 as [-> _] end.
  cbn [np.rint].
  set (yq := np.to_Q (S754_finite false m e)) in *.
  pose proof (nearest_even_close yq) as Hclose.
  apply Qabs_Qle_condition in Hclose.
  destruct (nearest_even_between 0 100000 yq) as [Hn0 Hn1].
  { change (inject_Z 0) with 0%Q. Lqa.lra. }
  { change (inject_Z 100000) with (100000 # 1)%Q. Lqa.lra. }
  set (n := np.nearest_even yq) in *.
  unfold Qdiv in Hup1, Hdn1. change (/ 2)%Q with (1 # 2)%Q in Hup1, Hdn1.
  destruct n as [|pn|pn] eqn:Hn; [| |lia].
  { (* rounds to zero *)
    change (np.div (S754_zero false) (S754_finite false 6871947673600000 (-36)))
      with (S754_zero false).
    split; [reflexivity|]. cbn [np.to_Q].
    change (inject_Z 0) with 0%Q in Hclose.
    apply Qabs_Qle_condition. split; Lqa.lra. }
  (* rounds to a positive integer *)
  destruct (of_Z_exact (Zpos pn)) as (k2 & E2 & Hrep2 & Hval2 & Hk2); [lia|].
  destruct (np.of_Z (Zpos pn)) as [s2|s2| |s2 mn en]; cbn in Hrep2; try contradiction.
  { match type of Hrep2 with _ /\ _ => destruct Hrep2 as [_ Hk0] end. lia. }
  match type of Hrep2 with _ /\ _ => destruct Hrep2 as [-> Hmn] end.
  rewrite Hval2 in Hmn.
  assert (HN : (inject_Z (Zpos pn) <= 100000)%Q).
  { change 100000%Q with (inject_Z 100000). rewrite <- Zle_Qle. lia. }
  destruct (div_correct mn 6871947673600000 en (-36))
    as (k3 & E3 & HE3 & Hk3 & Hrep3 & Hup3 & Hdn3 & Hone).
  { rewrite Hmn, p5_value. exact HN. }
  rewrite Hmn, p5_value in Hup3, Hdn3.
  destruct (represents_value _ _ _ Hrep3) as [_ Hval3].
  split; [exact (represents_probability _ _ _ Hrep3 Hone)|].
  rewrite Hval3.
  assert (HpE3 : (pow2 E3 <= pow2 (-52))%Q) by (apply pow2_le; lia).
  rewrite pow2_m52 in HpE3.
  pose proof (pow2_pos E3) as HpE3pos.
  unfold Qdiv in Hup3, Hdn3.
  change (/ 2)%Q with (1 # 2)%Q in Hup3, Hdn3.
  change (/ 100000)%Q with (1 # 100000)%Q in Hup3, Hdn3.
  apply Qabs_Qle_condition. split; Lqa.lra.
Qed.

Lemma two_float : np.of_Z 2 = S754_finite false 4503599627370496 (-51).
Proof. vm_compute. reflexivity. Qed.

Lemma two_value : (inject_Z (Zpos 4503599627370496) * pow2 (-51) == 2)%Q.
Proof. vm_compute. reflexivity. Qed.

Lemma pow2_m51 : (pow2 (-51) == 1 # 2251799813685248)%Q.
Proof. vm_compute. reflexivity. Qed.

(** Halving a float that is at most 2. *)
Lemma halve_correct (m : positive) (e : Z) :
  let x := (inject_Z (Zpos m) * pow2 e)%Q in
  let h := np.div (S754_finite false m e) (S754_finite false 4503599627370496 (-51)) in
  (x <= 2)%Q ->
  is_probability h = true /\
  (Qabs (np.to_Q h - x * (1 # 2)) <= 1 # 9007199254740992)%Q.
Proof.
  intros x h Hx.
  destruct (div_correct m 4503599627370496 e (-51))
    as (k & E & HE & Hk & Hrep & Hup & Hdn & Hone).
  { rewrite two_value. exact Hx. }
  rewrite two_value in Hup, Hdn. fold x in Hup, Hdn. fold h in Hrep.
  destruct (represents_value _ _ _ Hrep) as [_ Hval].
  split; [exact (represents_probability _ _ _ Hrep Hone)|].
  rewrite Hval.
  assert (HpE : (pow2 E <= pow2 (-52))%Q) by (apply pow2_le; lia).
  rewrite pow2_m52 in HpE.
  unfold Qdiv in Hup, Hdn. change (/ 2)%Q with (1 # 2)%Q in Hup, Hdn.
  apply Qabs_Qle_condition. split; Lqa.lra.
Qed.

Lemma mean_probability (a b : np.float64) :
  is_probability a = true -> is_probability b = true ->
  let mean := np.div (np.add a b) (np.of_Z 2) in
  is_probability mean = true /\
  (Qabs (np.to_Q mean - (np.to_Q a + np.to_Q b) * (1 # 2)) <= 1 # 4503599627370496)%Q.
Proof.
  intros Ha Hb. rewrite two_float.
  destruct (probability_cases a Ha) as [[sa ->]|(ma & ea & -> & Hale & Hea)];
    destruct (probability_cases b Hb) as [[sb ->]|(mb & eb & -> & Hble & Heb)].
  - destruct sa, sb; vm_compute; split; try reflexivity; discriminate.
  - change (np.add (S754_zero sa) (S754_finite false mb eb))
      with (S754_finite false mb eb).
    destruct (halve_correct mb eb) as [Hp Hq]; [Lqa.lra|].
    cbv zeta. split; [exact Hp|].
    cbn [np.to_Q] in Hq |- *. cbn [cond_Zopp] in *. fold (pow2 eb) in *.
    apply Qabs_Qle_condition in Hq. apply Qabs_Qle_condition.
    split; Lqa.lra.
  - change (np.add (S754_finite false ma ea) (S754_zero sb))
      with (S754_finite false ma ea).
    destruct (halve_correct ma ea) as [Hp Hq]; [Lqa.lra|].
    cbv zeta. split; [exact Hp|].
    cbn [np.to_Q] in Hq |- *. cbn [cond_Zopp] in *. fold (pow2 ea) in *.
    apply Qabs_Qle_condition in Hq. apply Qabs_Qle_condition.
    split; Lqa.lra.
  - pose proof (finite_value_pos ma ea) as Hapos.
    pose proof (finite_value_pos mb eb) as Hbpos.
    cbv zeta.
    change (np.to_Q (S754_finite false ma ea)) with (inject_Z (Zpos ma) * pow2 ea)%Q.
    change (np.to_Q (S754_finite false mb eb)) with (inject_Z (Zpos mb) * pow2 eb)%Q.
    set (xa := (inject_Z (Zpos ma) * pow2 ea)%Q) in *.
    set (xb := (inject_Z (Zpos mb) * pow2 eb)%Q) in *.
    destruct (add_correct ma mb ea eb 2) as (k & E & HE & Hk & Hrep & Hup & Hdn).
    { fold xa xb. change (pow2 2) with (4 # 1)%Q. Lqa.lra. }
    { change (fexp 53 1024 2) with (-51)%Z. lia. }
    change (fexp 53 1024 2) with (-51)%Z in HE.
    fold xa xb in Hup, Hdn.
    pose proof (pow2_le E (-51) HE) as HpE. rewrite pow2_m51 in HpE.
    pose proof (pow2_pos E) as HpEpos.
    assert (Hs_hi : (inject_Z k * pow2 E <= 2)%Q).
    { assert (Hm : (2 == inject_Z (2 * 2 ^ (- E)) * pow2 E)%Q).
      { apply (integer_multiple 2 E). lia. }
      apply Qle_trans with (inject_Z (2 * 2 ^ (- E)) * pow2 E)%Q;
        [|rewrite <- Hm; apply Qle_refl].
      apply (rounded_le_multiple (xa + xb) (pow2 E) k _ HpEpos Hup).
      rewrite <- Hm. Lqa.lra. }
    unfold Qdiv in Hup, Hdn. change (/ 2)%Q with (1 # 2)%Q in Hup, Hdn.
    set (sum := np.add (S754_finite false ma ea) (S754_finite false mb eb)) in *.
    destruct sum as [s|s| |s ms es]; cbn in Hrep; try contradiction.
    + match type of Hrep with _ /\ _ => destruct Hrep as [-> Hk0] end.
      change (np.div (S754_zero false) (S754_finite false 4503599627370496 (-51)))
        with (S754_zero false).
      split; [reflexivity|]. cbn [np.to_Q].
      assert (Hy0 : (inject_Z k * pow2 E == 0)%Q) by (rewrite Hk0; ring).
      apply Qabs_Qle_condition. split; Lqa.lra.
    + match type of Hrep with _ /\ _ => destruct Hrep as [-> Hms] end.
      destruct (halve_correct ms es) as [Hp Hq]; [rewrite Hms; exact Hs_hi|].
      split; [exact Hp|].
      rewrite Hms in Hq.
      apply Qabs_Qle_condition in Hq. apply Qabs_Qle_condition.
      split; Lqa.lra.
Qed.

(** ** The readout error of probabilities *)

(** X13. When the two readout properties of a qubit are probabilities,
    binary64 numbers between 0 and 1, the loop reports three binary64
    numbers between 0 and 1 for it: [a] and [b], each within
    0.000005 + 2e-16 of the property it rounds, and the error, within
    0.000005 + 5e-16 of the exact mean of the two properties. *)
Theorem readout_error_accuracy (props : BackendProperties) (j : nat)
        (pj : list (string * (np.float64 * string))) (a0 b0 : np.float64)
        (da db : string) :
  qubit_property props j = Some pj ->
  dict_get pj "prob_meas0_prep1" = Some (a0, da) ->
  dict_get pj "prob_meas1_prep0" = Some (b0, db) ->
  is_probability a0 = true -> is_probability b0 = true ->
  exists report,
    readout_error props j = Some report /\
    is_probability (report_a report) = true /\
    is_probability (report_b report) = true /\
    is_probability (report_error report) = true /\
    (Qabs (np.to_Q (report_a report) - np.to_Q a0)
     <= (5 # 1000000) + (2 # 10000000000000000))%Q /\
    (Qabs (np.to_Q (report_b report) - np.to_Q b0)
     <= (5 # 1000000) + (2 # 10000000000000000))%Q /\
    (Qabs (np.to_Q (report_error report) - (np.to_Q a0 + np.to_Q b0) / 2)
     <= (5 # 1000000) + (5 # 10000000000000000))%Q.
Proof.
  intros Hp Ha Hb Hpa Hpb.
  rewrite (readout_error_value props j pj a0 b0 da db Hp Ha Hb).
  eexists. split; [reflexivity|]. cbn [report_error report_a report_b].
  destruct (round_probability a0 Hpa) as [Hra Hca].
  destruct (round_probability b0 Hpb) as [Hrb Hcb].
  destruct (mean_probability _ _ Hra Hrb) as [Hrm Hcm]. cbv zeta in Hcm.
  repeat (split; [assumption|]).
  set (ra := np.to_Q (np.round a0 5)) in *.
  set (rb := np.to_Q (np.round b0 5)) in *.
  set (rm := np.to_Q (np.div (np.add (np.round a0 5) (np.round b0 5)) (np.of_Z 2))) in *.
  clearbody ra rb rm.
  apply Qabs_Qle_condition in Hca. apply Qabs_Qle_condition in Hcb.
  apply Qabs_Qle_condition in Hcm.
  destruct Hca as [Hca1 Hca2], Hcb as [Hcb1 Hcb2], Hcm as [Hcm1 Hcm2].
  unfold Qdiv. change (/ 2)%Q with (1 # 2)%Q.
  apply Qabs_Qle_condition. split; Lqa.lra.
Qed.

Lemma readout_error_accuracy_witness :
  (* 0.0533 and 0.018666667 *)
  let a0 := S754_finite false 7681339524443118 (-57) in
  let b0 := S754_finite false 5380300450908745 (-58) in
  let pj := [("prob_meas0_prep1", (a0, "2020-10-12"));
             ("prob_meas1_prep0", (b0, "2020-10-12"))]%string in
  qubit_property [pj] 0 = Some pj /\
  dict_get pj "prob_meas0_prep1" = Some (a0, "2020-10-12"%string) /\
  dict_get pj "prob_meas1_prep0" = Some (b0, "2020-10-12"%string) /\
  is_probability a0 = true /\ is_probability b0 = true /\
  exists report,
    readout_error [pj] 0 = Some report /\
    is_probability (report_error report) = true /\
    (Qabs (np.to_Q (report_error report) - (np.to_Q a0 + np.to_Q b0) / 2)
     <= (5 # 1000000) + (5 # 10000000000000000))%Q.
Proof.
  cbv zeta. do 5 (split; [reflexivity|]).
  destruct (readout_error_accuracy
              [[("prob_meas0_prep1",
                 (S754_finite false 7681339524443118 (-57), "2020-10-12"));
                ("prob_meas1_prep0",
                 (S754_finite false 5380300450908745 (-58), "2020-10-12"))]%string]
              0 _ _ _ _ _ eq_refl eq_refl eq_refl eq_refl eq_refl)
    as (report & Hreport & _ & _ & Hrange & _ & _ & Hacc).
  exists report. split; [exact Hreport|]. split; [exact Hrange | exact Hacc].
Defined.

(** ** The readout error: missing properties *)

(** X14. The loop over the five qubits raises exactly when one of them
    cannot be read: the backend has no qubit [j] (fewer than five
    qubits), or the properties of qubit [j] lack one of the two readout
    probabilities. *)
Theorem readout_errors_raises_iff (props : BackendProperties) :
  readout_errors props = None <->
  exists j, (j < 5)%nat /\
    (qubit_property props j = None \/
     exists pj, qubit_property props j = Some pj /\
       (dict_get pj "prob_meas0_prep1" = None \/
        dict_get pj "prob_meas1_prep0" = None)).
Proof.
  unfold readout_errors. split.
  - intros Hnone. apply omap_none in Hnone. destruct Hnone as (j & Hj & Herr).
    apply in_seq in Hj. exists j. split; [lia|].
    unfold readout_error in Herr.
    destruct (qubit_property props j) as [pj|]; [|now left].
    right. exists pj. split; [reflexivity|]. cbn [obind] in Herr.
    destruct (dict_get pj "prob_meas0_prep1") as [va|]; [|now left].
    cbn [obind] in Herr.
    destruct (dict_get pj "prob_meas1_prep0") as [vb|]; [|now right].
    discriminate Herr.
  - intros (j & Hj & Hmiss).
    destruct (omap (readout_error props) (seq 0 5)) as [reports|] eqn:Hall;
      [|reflexivity].
    destruct (omap_nth_error _ _ _ Hall j j) as (report & Hreport & _).
    { rewrite nth_error_seq.
      destruct (Nat.ltb_spec j 5) as [_|Hge]; [reflexivity | lia]. }
    unfold readout_error in Hreport.
    destruct Hmiss as [Hq | (pj & Hq & [Ha | Hb])].
    + rewrite Hq in Hreport. discriminate Hreport.
    + rewrite Hq in Hreport. cbn [obind] in Hreport.
      rewrite Ha in Hreport. discriminate Hreport.
    + rewrite Hq in Hreport. cbn [obind] in Hreport.
      destruct (dict_get pj "prob_meas0_prep1"); [|discriminate Hreport].
      cbn [obind] in Hreport. rewrite Hb in Hreport. discriminate Hreport.
Qed.
